(** * Baralga: the project repository and the JSON problem responses

    A shallow embedding of [DbProjectRepository] (the SQL repository for
    projects) and of [util.RenderProblemJSON], with the relational store,
    its transactions and the HTTP response writer modelled as explicit
    state. *)

From Stdlib Require Import ZArith NArith Strings.Byte Ascii String.
From stdpp Require Import base option list sorting strings gmap.

(** ** github.com/google/uuid

    A UUID is [16]byte.  [String] is the canonical lower-case
    xxxxxxxx-xxxx-xxxx-xxxx-xxxxxxxxxxxx spelling and [Parse] reads that
    spelling back (either case of the hex digits).  The library's [Parse]
    also accepts a urn:uuid: prefix, braces and 32 bare hex digits; the
    store never hands those out, and they are rejected here. *)
Module uuid.

#[global] Instance byte_eq_dec : EqDecision byte := Byte.byte_eq_dec.

Record UUID := mk {
  u0 : byte; u1 : byte; u2 : byte; u3 : byte;
  u4 : byte; u5 : byte; u6 : byte; u7 : byte;
  u8 : byte; u9 : byte; u10 : byte; u11 : byte;
  u12 : byte; u13 : byte; u14 : byte; u15 : byte
}.

#[global] Instance UUID_eq_dec : EqDecision UUID.
Proof. solve_decision. Defined.

(** uuid.Nil, the zero value of the type. *)
Definition Nil : UUID :=
  mk x00 x00 x00 x00 x00 x00 x00 x00 x00 x00 x00 x00 x00 x00 x00 x00.

Definition hexdigit (n : N) : ascii :=
  match n with
  | 0 => "0" | 1 => "1" | 2 => "2" | 3 => "3" | 4 => "4" | 5 => "5"
  | 6 => "6" | 7 => "7" | 8 => "8" | 9 => "9" | 10 => "a" | 11 => "b"
  | 12 => "c" | 13 => "d" | 14 => "e" | _ => "f"
  end%N%char.

(** The table [xvalues]: the value of a hex digit, of either case. *)
Definition xvalue (c : ascii) : option N :=
  let n := N_of_ascii c in
  if ((48 <=? n) && (n <=? 57))%N then Some (n - 48)%N
  else if ((97 <=? n) && (n <=? 102))%N then Some (n - 87)%N
  else if ((65 <=? n) && (n <=? 70))%N then Some (n - 55)%N
  else None.

Definition xtob (x1 x2 : ascii) : option byte :=
  h ← xvalue x1; l ← xvalue x2; Byte.of_N (16 * h + l).

Definition hi (b : byte) : ascii := hexdigit (Byte.to_N b / 16).
Definition lo (b : byte) : ascii := hexdigit (Byte.to_N b mod 16).

Definition hex (b : byte) (rest : string) : string :=
  String (hi b) (String (lo b) rest).

Definition dash (rest : string) : string := String "-"%char rest.

(** [UUID.String]. *)
Definition String (u : UUID) : string :=
  hex (u0 u) (hex (u1 u) (hex (u2 u) (hex (u3 u) (dash
  (hex (u4 u) (hex (u5 u) (dash
  (hex (u6 u) (hex (u7 u) (dash
  (hex (u8 u) (hex (u9 u) (dash
  (hex (u10 u) (hex (u11 u) (hex (u12 u) (hex (u13 u)
  (hex (u14 u) (hex (u15 u) ""))))))))))))))))))).

Definition is_dash (c : ascii) : bool := bool_decide (c = "-"%char).

(** [uuid.Parse], on the 36 character spelling; [None] is its error. *)
Definition Parse (s : string) : option UUID :=
  match list_ascii_of_string s with
  | [a0; a1; a2; a3; a4; a5; a6; a7; d1; a8; a9; a10; a11; d2;
     a12; a13; a14; a15; d3; a16; a17; a18; a19; d4;
     a20; a21; a22; a23; a24; a25; a26; a27; a28; a29; a30; a31] =>
    if is_dash d1 && is_dash d2 && is_dash d3 && is_dash d4 then
      x0 ← xtob a0 a1; x1 ← xtob a2 a3; x2 ← xtob a4 a5; x3 ← xtob a6 a7;
      x4 ← xtob a8 a9; x5 ← xtob a10 a11; x6 ← xtob a12 a13;
      x7 ← xtob a14 a15; x8 ← xtob a16 a17; x9 ← xtob a18 a19;
      x10 ← xtob a20 a21; x11 ← xtob a22 a23; x12 ← xtob a24 a25;
      x13 ← xtob a26 a27; x14 ← xtob a28 a29; x15 ← xtob a30 a31;
      Some (mk x0 x1 x2 x3 x4 x5 x6 x7 x8 x9 x10 x11 x12 x13 x14 x15)
    else None
  | _ => None
  end.

End uuid.

(** ** Errors: the sentinels of the repository and of pgx, and
    github.com/pkg/errors *)
Module errors.

Inductive error : Type :=
  | ErrProjectNotFound                      (* var ErrProjectNotFound *)
  | ErrNoRows                               (* pgx.ErrNoRows *)
  | StoreError (msg : string)               (* any other failure of the store or the driver *)
  | Wrap (err : error) (message : string).  (* errors.Wrap(err, message) *)

#[global] Instance error_eq_dec : EqDecision error.
Proof. solve_decision. Defined.

(** [errors.Is]: [target] is found somewhere along the chain of causes. *)
Fixpoint Is (err target : error) : bool :=
  bool_decide (err = target) ||
  match err with
  | Wrap cause _ => Is cause target
  | _ => false
  end.

(** The [Error()] method. *)
Fixpoint Error (err : error) : string :=
  match err with
  | ErrProjectNotFound => "project not found"
  | ErrNoRows => "no rows in result set"
  | StoreError msg => msg
  | Wrap cause message => message +:+ ": " +:+ Error cause
  end.

(** What a Go function returning [(T, error)] hands back, or a panic. *)
Inductive outcome (A : Type) : Type :=
  | Ok (a : A)
  | Err (err : error)
  | Panic.
#[global] Arguments Ok {A} a.
#[global] Arguments Err {A} err.
#[global] Arguments Panic {A}.

End errors.

(** ** github.com/baralga/paged *)
Module paged.

(** Modelled from the spec: the page helper is not under src.  A page
    request carries a page number and a page size; the offset is
    (page-1)*size; the metadata is the page number, the page size, the total
    item count and total pages = ceil(total/size). *)
Record PageParams := { Number : Z; Size : Z }.

Record Page := {
  PageNumber : Z;
  PageSize : Z;
  TotalElements : Z;
  TotalPages : Z
}.

Definition Offset (p : PageParams) : Z := (Number p - 1) * Size p.

Definition total_pages (total size : Z) : Z :=
  if decide (size = 0)%Z then 0%Z else ((total + size - 1) / size)%Z.

Definition PageOfTotal (p : PageParams) (total : Z) : Page :=
  {| PageNumber := Number p; PageSize := Size p;
     TotalElements := total; TotalPages := total_pages total (Size p) |}.

End paged.

(** ** The relational store behind the connection pool *)
Module pg.
Import uuid errors.

(** The columns the statements of the repository name.  Modelled from the
    spec: the table definitions are not under src; [description] is the one
    nullable column, and [project_id] is the primary key of [projects]. *)
Record ProjectRow := {
  project_id : UUID;
  title : string;
  active : bool;
  description : option string;
  org_id : UUID
}.

(** Modelled from the spec: an activity row references a project and
    carries the organization; its other columns play no role here. *)
Record ActivityRow := {
  activity_id : UUID;
  activity_project_id : UUID;
  activity_org_id : UUID
}.

#[global] Instance ProjectRow_eq_dec : EqDecision ProjectRow.
Proof. solve_decision. Defined.
#[global] Instance ActivityRow_eq_dec : EqDecision ActivityRow.
Proof. solve_decision. Defined.

Record Tables := {
  projects : list ProjectRow;
  activities : list ActivityRow
}.

(** The collation of the [title] column: a total order on strings. *)
Record Collation := {
  coll_leb : string → string → bool;
  coll_total : ∀ a b, coll_leb a b = true ∨ coll_leb b a = true;
  coll_trans : ∀ a b d, coll_leb a b = true → coll_leb b d = true → coll_leb a d = true;
  coll_antisym : ∀ a b, coll_leb a b = true → coll_leb b a = true → a = b
}.

(** The order in which one execution of a query reads the matching rows
    before it sorts them.  [ORDER BY title] fixes the order of rows with
    different titles only: PostgreSQL leaves the order of rows that are
    equal under the sort key to the implementation, and warns that
    different LIMIT/OFFSET values may give inconsistent results unless
    the ordering is unique.  So rows with equal titles come out in the
    order this execution happened to read them, and two executions need
    not read alike. *)
Record Scan := {
  scan_rows :> list ProjectRow → list ProjectRow;
  scan_perm : ∀ l, scan_rows l ≡ₚ l
}.

Definition title_le (c : Collation) (r1 r2 : ProjectRow) : Prop :=
  coll_leb c (title r1) (title r2) = true.

#[global] Instance title_le_dec c r1 r2 : Decision (title_le c r1 r2).
Proof. unfold title_le. apply _. Defined.

#[global] Instance title_le_total c : Total (title_le c).
Proof. intros r1 r2. apply coll_total. Qed.

#[global] Instance title_le_trans c : Transitive (title_le c).
Proof. intros r1 r2 r3. apply coll_trans. Qed.

(** ORDER BY title ASC *)
Definition order_by_title (c : Collation) (sc : Scan) (rows : list ProjectRow)
  : list ProjectRow :=
  merge_sort (title_le c) (sc rows).

(** WHERE project_id = $1 AND org_id = $2 *)
Definition has_key (id org : UUID) (r : ProjectRow) : Prop :=
  project_id r = id ∧ org_id r = org.

#[global] Instance has_key_dec id org r : Decision (has_key id org r).
Proof. unfold has_key. apply _. Defined.

Definition activity_has_key (id org : UUID) (a : ActivityRow) : Prop :=
  activity_project_id a = id ∧ activity_org_id a = org.

#[global] Instance activity_has_key_dec id org a : Decision (activity_has_key id org a).
Proof. unfold activity_has_key. apply _. Defined.

(** What [Query] hands back: the rows still to be read by [Next] and
    [Scan], and the error [rows.Err()] would report.  The repository never
    reads the latter. *)
Record Rows := {
  pending : list ProjectRow;
  rows_Err : option error
}.

(** SELECT ... FROM projects WHERE org_id = $1 ORDER BY title ASC
    LIMIT $2 OFFSET $3.  A negative LIMIT or OFFSET is refused when the
    statement executes, which the driver reports through [rows.Err()]. *)
Definition select_page (c : Collation) (sc : Scan) (org : UUID)
    (limit offset : Z) (t : Tables) : Rows :=
  if decide (limit < 0 ∨ offset < 0)%Z then
    {| pending := []; rows_Err := Some (StoreError "LIMIT or OFFSET must not be negative") |}
  else
    {| pending := take (Z.to_nat limit) (drop (Z.to_nat offset)
                    (order_by_title c sc (filter (λ r, org_id r = org) (projects t))));
       rows_Err := None |}.

(** SELECT count( * ) FROM projects WHERE org_id = $1 *)
Definition select_count (org : UUID) (t : Tables) : Z :=
  Z.of_nat (length (filter (λ r, org_id r = org) (projects t))).

(** SELECT ... FROM projects WHERE org_id = $1 AND project_id = any($2)
    ORDER by title ASC *)
Definition select_by_ids (c : Collation) (sc : Scan) (org : UUID)
    (ids : list UUID) (t : Tables) : Rows :=
  {| pending := order_by_title c sc
       (filter (λ r, org_id r = org ∧ project_id r ∈ ids) (projects t));
     rows_Err := None |}.

(** SELECT ... FROM projects WHERE project_id = $1 AND org_id = $2 *)
Definition select_by_key (id org : UUID) (t : Tables) : list ProjectRow :=
  filter (has_key id org) (projects t).

(** INSERT INTO projects (project_id, title, active, description, org_id)
    VALUES ($1, $2, $3, $4, $5) *)
Definition insert_project (r : ProjectRow) (t : Tables) : error + Tables :=
  if decide (project_id r ∈ (project_id <$> projects t)) then
    inl (StoreError "duplicate key value violates unique constraint")
  else inr {| projects := projects t ++ [r]; activities := activities t |}.

(** UPDATE projects SET title = $3, description = $4, active = $5
    WHERE project_id = $1 AND org_id = $2 RETURNING project_id *)
Definition update_project (id org : UUID) (ti de : string) (ac : bool)
    (t : Tables) : Tables * list UUID :=
  let set r :=
    if decide (has_key id org r) then
      {| project_id := project_id r; title := ti; active := ac;
         description := Some de; org_id := org_id r |}
    else r in
  ({| projects := set <$> projects t; activities := activities t |},
   project_id <$> filter (has_key id org) (projects t)).

(** DELETE FROM activities WHERE project_id = $1 AND org_id = $2 *)
Definition delete_activities (id org : UUID) (t : Tables) : Tables :=
  {| projects := projects t;
     activities := filter (λ a, ¬ activity_has_key id org a) (activities t) |}.

(** DELETE FROM projects WHERE project_id = $1 AND org_id = $2
    RETURNING project_id *)
Definition delete_project (id org : UUID) (t : Tables) : Tables * list UUID :=
  ({| projects := filter (λ r, ¬ has_key id org r) (projects t);
      activities := activities t |},
   project_id <$> filter (has_key id org) (projects t)).

(** A uuid column scanned into a Go string: the driver writes the
    canonical spelling. *)
Definition uuid_text (u : UUID) : string := uuid.String u.

(** How the store and the driver misbehave during one call of the
    repository: each field is the failure of one kind of call, [None] when
    that call goes through. *)
Record Faults := {
  begin_err : option error;       (* connPool.Begin *)
  exec_err : option error;        (* tx.Exec *)
  query_err : option error;       (* connPool.Query *)
  next_stop : option nat;         (* the row stream breaks after so many rows *)
  scan_err : nat → option error;  (* rows.Scan of the i-th row *)
  row_err : option error;         (* Row.Scan of a QueryRow, other than for want of a row *)
  returned_id : option string;    (* RETURNING project_id answers with another text *)
  rollback_err : option error;    (* tx.Rollback *)
  commit_err : option error       (* tx.Commit *)
}.

Definition healthy : Faults :=
  {| begin_err := None; exec_err := None; query_err := None;
     next_stop := None; scan_err := λ _, None; row_err := None;
     returned_id := None; rollback_err := None; commit_err := None |}.

(** The pool: the committed tables, the number of transactions begun and
    not yet committed or rolled back, and the transaction calls so far. *)
Inductive TxEvent := TxBegin | TxCommit | TxRollback.

#[global] Instance TxEvent_eq_dec : EqDecision TxEvent.
Proof. solve_decision. Defined.

Record Pool := {
  committed : Tables;
  open_txs : nat;
  calls : list TxEvent
}.

(** A transaction works on its own copy of the tables until it commits. *)
Record Tx := { working : Tables }.

Definition Begin (f : Faults) (p : Pool) : (error + Tx) * Pool :=
  match begin_err f with
  | Some err => (inl err, p)
  | None =>
    (inr {| working := committed p |},
     {| committed := committed p; open_txs := S (open_txs p);
        calls := calls p ++ [TxBegin] |})
  end.

(** [Commit] closes the transaction whether or not it succeeds; its
    effects are installed only when it does. *)
Definition Commit (f : Faults) (tx : Tx) (p : Pool) : option error * Pool :=
  match commit_err f with
  | Some err =>
    (Some err, {| committed := committed p; open_txs := pred (open_txs p);
                  calls := calls p ++ [TxCommit] |})
  | None =>
    (None, {| committed := working tx; open_txs := pred (open_txs p);
              calls := calls p ++ [TxCommit] |})
  end.

(** [Rollback] closes the transaction and drops its effects; a failed
    rollback installs nothing either. *)
Definition Rollback (f : Faults) (tx : Tx) (p : Pool) : option error * Pool :=
  (rollback_err f,
   {| committed := committed p; open_txs := pred (open_txs p);
      calls := calls p ++ [TxRollback] |}).

(** tx.Exec *)
Definition Exec (f : Faults) (tx : Tx) (stmt : Tables → error + Tables)
  : option error * Tx :=
  match exec_err f with
  | Some err => (Some err, tx)
  | None =>
    match stmt (working tx) with
    | inl err => (Some err, tx)
    | inr t => (None, {| working := t |})
    end
  end.

(** connPool.Query *)
Definition Query (f : Faults) (stmt : Tables → Rows) (t : Tables) : error + Rows :=
  match query_err f with
  | Some err => inl err
  | None =>
    let rows := stmt t in
    match next_stop f with
    | Some n =>
      inr {| pending := take n (pending rows);
             rows_Err := Some (StoreError "unexpected EOF") |}
    | None => inr rows
    end
  end.

(** QueryRow(...).Scan(&id) of a statement with RETURNING project_id: the
    statement runs, and the first identifier it returns is scanned.  A
    call that fails leaves the tables as they were. *)
Definition QueryRow_returning (f : Faults) (stmt : Tables → Tables * list UUID)
    (t : Tables) : (error + string) * Tables :=
  match row_err f with
  | Some err => (inl err, t)
  | None =>
    let '(t', ids) := stmt t in
    match ids with
    | [] => (inl ErrNoRows, t')
    | id :: _ => (inr (default (uuid_text id) (returned_id f)), t')
    end
  end.

(** QueryRow(...).Scan(...) of a SELECT of project columns. *)
Definition QueryRow_project (f : Faults) (rows : list ProjectRow)
  : error + ProjectRow :=
  match row_err f with
  | Some err => inl err
  | None =>
    match rows with
    | [] => inl ErrNoRows
    | r :: _ => inr r
    end
  end.

(** QueryRow(...).Scan(&total) of the count. *)
Definition QueryRow_count (f : Faults) (total : Z) : error + Z :=
  match row_err f with
  | Some err => inl err
  | None => inr total
  end.

End pg.

(** ** package main: the project repository *)
Module repo.
Import uuid errors paged pg.

(** Modelled from the spec: the Project struct is declared in a file that
    is not under src.  Its fields are the ones the repository reads and
    writes. *)
Record Project := {
  ID : UUID;
  OrganizationID : UUID;
  Title : string;
  Description : string;
  Active : bool
}.

#[global] Instance Project_eq_dec : EqDecision Project.
Proof. solve_decision. Defined.

Record ProjectsPaged := {
  Projects : list Project;
  Page : paged.Page
}.

(** sql.NullString.String: the empty string for NULL. *)
Definition NullString_String (description : option string) : string :=
  default "" description.

(** The body of the three read operations after a row was scanned into
    [id], [title], [description] and [active]:
    [&Project{ID: uuid.MustParse(id), Title: title,
              Description: description.String, Active: active}].
    The field OrganizationID is not set. *)
Definition project_of_scan (id title : string) (description : option string)
    (active : bool) : option Project :=
  u ← uuid.Parse id;
  Some {| ID := u; OrganizationID := uuid.Nil; Title := title;
          Description := NullString_String description; Active := active |}.

Definition scan_project (r : ProjectRow) : option Project :=
  project_of_scan (uuid_text (project_id r)) (title r) (description r) (active r).

(** [for rows.Next() { err = rows.Scan(...); ...; projects = append(...) }],
    reading the [i]-th row first. *)
Fixpoint scan_projects (f : Faults) (i : nat) (rows : list ProjectRow)
  : outcome (list Project) :=
  match rows with
  | [] => Ok []
  | r :: rows =>
    match scan_err f i with
    | Some err => Err err
    | None =>
      match scan_project r with
      | None => Panic
      | Some project =>
        match scan_projects f (S i) rows with
        | Ok projects => Ok (project :: projects)
        | Err err => Err err
        | Panic => Panic
        end
      end
    end
  end.

Definition FindProjects (c : Collation) (sc : Scan) (f : Faults) (p : Pool)
    (organizationID : UUID) (pageParams : PageParams) : outcome ProjectsPaged :=
  match Query f (select_page c sc organizationID (Size pageParams) (Offset pageParams))
          (committed p) with
  | inl err => Err err
  | inr rows =>
    match scan_projects f 0 (pending rows) with
    | Err err => Err err
    | Panic => Panic
    | Ok projects =>
      match QueryRow_count f (select_count organizationID (committed p)) with
      | inl err => Err err
      | inr total =>
        Ok {| Projects := projects; Page := PageOfTotal pageParams total |}
      end
    end
  end.

Definition FindProjectsByIDs (c : Collation) (sc : Scan) (f : Faults) (p : Pool)
    (organizationID : UUID) (projectIDs : list UUID) : outcome (list Project) :=
  match Query f (select_by_ids c sc organizationID projectIDs) (committed p) with
  | inl err => Err err
  | inr rows => scan_projects f 0 (pending rows)
  end.

Definition FindProjectByID (f : Faults) (p : Pool)
    (organizationID projectID : UUID) : outcome Project :=
  match QueryRow_project f (select_by_key projectID organizationID (committed p)) with
  | inl err =>
    if Is err ErrNoRows then Err ErrProjectNotFound else Err err
  | inr r =>
    match scan_project r with
    | None => Panic
    | Some project => Ok project
    end
  end.

Definition row_of_project (project : Project) : ProjectRow :=
  {| project_id := ID project; title := Title project;
     active := Active project; description := Some (Description project);
     org_id := OrganizationID project |}.

Definition InsertProject (f : Faults) (p : Pool) (project : Project)
  : outcome Project * Pool :=
  match Begin f p with
  | (inl err, p) => (Err err, p)
  | (inr tx, p) =>
    match Exec f tx (insert_project (row_of_project project)) with
    | (Some err, tx) =>
      let '(rb, p) := Rollback f tx p in
      match rb with
      | Some rb => (Err (Wrap rb "rollback error"), p)
      | None => (Err err, p)
      end
    | (None, tx) =>
      let '(err, p) := Commit f tx p in
      match err with
      | Some err => (Err err, p)
      | None => (Ok project, p)
      end
    end
  end.

(** The statement runs on the pool, outside any transaction, so its
    effect is installed as soon as it succeeds. *)
Definition UpdateProject (f : Faults) (p : Pool) (organizationID : UUID)
    (project : Project) : outcome Project * Pool :=
  match QueryRow_returning f
          (update_project (ID project) organizationID (Title project)
             (Description project) (Active project)) (committed p) with
  | (inl err, _) =>
    if Is err ErrNoRows then (Err ErrProjectNotFound, p) else (Err err, p)
  | (inr _, t) =>
    (Ok project, {| committed := t; open_txs := open_txs p; calls := calls p |})
  end.

Definition DeleteProjectByID (f : Faults) (p : Pool)
    (organizationID projectID : UUID) : option error * Pool :=
  match Begin f p with
  | (inl err, p) => (Some err, p)
  | (inr tx, p) =>
    match Exec f tx (λ t, inr (delete_activities projectID organizationID t)) with
    | (Some err, tx) =>
      let '(rb, p) := Rollback f tx p in
      match rb with
      | Some rb => (Some (Wrap rb "rollback error"), p)
      | None => (Some err, p)
      end
    | (None, tx) =>
      match QueryRow_returning f (delete_project projectID organizationID)
              (working tx) with
      | (inl err, _) =>
        let '(rb, p) := Rollback f tx p in
        match rb with
        | Some rb => (Some (Wrap rb "rollback error"), p)
        | None =>
          if Is err ErrNoRows then (Some ErrProjectNotFound, p)
          else (Some err, p)
        end
      | (inr id, t) =>
        if decide (id ≠ uuid.String projectID) then
          (Some ErrProjectNotFound, p)
        else Commit f {| working := t |} p
      end
    end
  end.

End repo.

(** ** net/http: the response writer *)
Module http.

(** The header map, the status line once it was written, and the body
    written so far. *)
Record ResponseWriter := {
  header : gmap string string;
  status : option Z;
  body : string
}.

Definition StatusInternalServerError : Z := 500.

(** Only the first call writes the status line. *)
Definition WriteHeader (code : Z) (w : ResponseWriter) : ResponseWriter :=
  match status w with
  | Some _ => w
  | None => {| header := header w; status := Some code; body := body w |}
  end.

(** A write before any [WriteHeader] sends status 200 first. *)
Definition Write (data : string) (w : ResponseWriter) : ResponseWriter :=
  let w := WriteHeader 200 w in
  {| header := header w; status := status w; body := body w +:+ data |}.

Definition newline : string := String "010"%char "".

(** http.Error(w, error, code) *)
Definition Error (w : ResponseWriter) (error : string) (code : Z) : ResponseWriter :=
  let h := delete "Content-Length" (header w) in
  let h := <["Content-Type" := "text/plain; charset=utf-8"]> h in
  let h := <["X-Content-Type-Options" := "nosniff"]> h in
  let w := {| header := h; status := status w; body := body w |} in
  let w := WriteHeader code w in
  Write (error +:+ newline) w.

End http.

(** ** schneider.vip/problem: problem documents *)
Module problem.
Section json.

(** encoding/json's spelling of a Go string, quotes included. *)
Variable quote : string → string.

Definition key_le (m1 m2 : string * string) : Prop :=
  String.leb (fst m1) (fst m2) = true.

#[local] Instance key_le_dec m1 m2 : Decision (key_le m1 m2).
Proof. unfold key_le. apply _. Defined.

(** A problem is a map from member names to values. *)
Definition Title (title : string) (p : gmap string string) : gmap string string :=
  <["title" := title]> p.

Definition Wrap (err : errors.error) (p : gmap string string) : gmap string string :=
  <["reason" := errors.Error err]> p.

Definition New (opts : list (gmap string string → gmap string string))
  : gmap string string :=
  foldl (λ p opt, opt p) ∅ opts.

Definition member (m : string * string) : string :=
  quote (fst m) +:+ ":" +:+ quote (snd m).

Fixpoint join (sep : string) (l : list string) : string :=
  match l with
  | [] => ""
  | [s] => s
  | s :: l => s +:+ sep +:+ join sep l
  end.

(** The JSON object of the map, its members in the order of their names. *)
Definition JSONString (p : gmap string string) : string :=
  "{" +:+ join "," (member <$> merge_sort key_le (map_to_list p)) +:+ "}".

End json.
End problem.

(** ** encoding/json: the encoder *)
Module json.
Import errors http.
Section encoder.

Context {A : Type}.

(** The JSON text of a value, or the error for a value that has none. *)
Variable marshal : A → error + string.

(** [json.NewEncoder(w).Encode(v)]: the value is marshalled in memory
    first; when that fails nothing is written.  Otherwise the text and a
    newline go to the writer in one write, whose failure [write_err] is
    returned; a response of net/http has sent its status line by then,
    and none of the text counts as delivered. *)
Definition Encode (write_err : option error) (w : ResponseWriter) (v : A)
  : option error * ResponseWriter :=
  match marshal v with
  | inl err => (Some err, w)
  | inr text =>
    match write_err with
    | Some err => (Some err, WriteHeader 200 w)
    | None => (None, Write (text +:+ newline) w)
    end
  end.

End encoder.
End json.

(** ** package util *)
Module util.
Import errors http problem.
Section render.

Variable quote : string → string.

(** The log is the list of the messages printed so far, without the
    time stamp the logger puts in front of each. *)
Definition RenderProblemJSON (w : ResponseWriter) (isProduction : bool)
    (err : error) (log : list string) : ResponseWriter * list string :=
  let log := log ++ ["internal server error: " +:+ errors.Error err] in
  if negb isProduction then
    (http.Error w
       (JSONString quote (New [Title "internal server error"; Wrap err]))
       StatusInternalServerError, log)
  else
    (http.Error w
       (JSONString quote (New [Title "internal server error"]))
       StatusInternalServerError, log).

End render.

Section render_json.

Context {A : Type}.
Variable quote : string → string.
Variable marshal : A → error + string.

Definition RenderJSON (write_err : option error) (w : ResponseWriter)
    (jsonModel : A) : ResponseWriter :=
  let w := {| header := <["Content-Type" := "application/json"]> (header w);
              status := status w; body := body w |} in
  match json.Encode marshal write_err w jsonModel with
  | (Some err, w) =>
    http.Error w (JSONString quote (New [problem.Wrap err]))
      StatusInternalServerError
  | (None, w) => w
  end.

End render_json.
End util.

(** ** The byte order on titles as a collation; two ways of scanning *)

Definition bytewise : pg.Collation :=
  {| pg.coll_leb := String.leb;
     pg.coll_total := String.leb_total;
     pg.coll_trans := λ a b d Hab Hbd,
       Is_true_true_1 _
         (transitivity (R := String.le) (Is_true_true_2 _ Hab) (Is_true_true_2 _ Hbd));
     pg.coll_antisym := String.leb_antisym |}.

(** The rows in the order the table holds them, and in the opposite order. *)
Definition heap_scan : pg.Scan :=
  {| pg.scan_rows := λ l, l; pg.scan_perm := λ l, reflexivity l |}.

Definition backward_scan : pg.Scan :=
  {| pg.scan_rows := reverse; pg.scan_perm := reverse_Permutation |}.

(** ** Sample data: two organizations and their projects *)
Module sample.
Import uuid errors paged pg repo.

Definition tag (b : byte) : UUID :=
  mk x00 x00 x00 x00 x00 x00 x00 x00 x00 x00 x00 x00 x00 x00 x00 b.

Definition orgA : UUID := tag xa1.
Definition orgB : UUID := tag xb2.
Definition P1 : UUID := tag x01.
Definition P2 : UUID := tag x02.
Definition P3 : UUID := tag x03.

Definition alpha : Project :=
  {| ID := P1; OrganizationID := orgA; Title := "Alpha";
     Description := ""; Active := true |}.

Definition row1 : ProjectRow :=
  {| project_id := P1; title := "Alpha"; active := true;
     description := Some ""; org_id := orgA |}.
Definition row2 : ProjectRow :=
  {| project_id := P2; title := "Alpha"; active := true;
     description := None; org_id := orgA |}.
Definition row3 : ProjectRow :=
  {| project_id := P3; title := "Beta"; active := false;
     description := Some "other tenant"; org_id := orgB |}.

Definition act (n : byte) (project org : UUID) : ActivityRow :=
  {| activity_id := tag n; activity_project_id := project;
     activity_org_id := org |}.

Definition empty : Pool :=
  {| committed := {| projects := []; activities := [] |};
     open_txs := 0; calls := [] |}.

(** Project P1 of organization A with two activities, and a project of
    organization B. *)
Definition pool1 : Pool :=
  {| committed := {| projects := [row1; row3];
                     activities := [act x11 P1 orgA; act x12 P1 orgA;
                                    act x13 P3 orgB] |};
     open_txs := 0; calls := [] |}.

(** Two projects of organization A that carry the same title. *)
Definition pool2 : Pool :=
  {| committed := {| projects := [row1; row2; row3]; activities := [] |};
     open_txs := 0; calls := [] |}.

(** Two projects of organization A with different titles. *)
Definition row4 : ProjectRow :=
  {| project_id := P2; title := "Beta"; active := true;
     description := Some "second"; org_id := orgA |}.

Definition pool3 : Pool :=
  {| committed := {| projects := [row4; row3; row1]; activities := [] |};
     open_txs := 0; calls := [] |}.

(** Project P1 of organization A with an activity under each of the two
    organizations. *)
Definition pool4 : Pool :=
  {| committed := {| projects := [row1];
                     activities := [act x11 P1 orgA; act x14 P1 orgB] |};
     open_txs := 0; calls := [] |}.

End sample.

(** ** Vocabulary of the properties *)
Section vocabulary.
Import errors paged pg repo.

(** A stored row as the read operations hand it out. *)
Definition project_of_row (r : ProjectRow) : Project :=
  {| ID := project_id r; OrganizationID := uuid.Nil; Title := title r;
     Description := NullString_String (description r); Active := active r |}.

(** The read path of every call goes through. *)
Definition reads_through (f : Faults) : Prop :=
  query_err f = None ∧ next_stop f = None ∧ (∀ i, scan_err f i = None) ∧
  row_err f = None.

(** Both statements of the delete, applied to the same tables. *)
Definition deleted (id org : uuid.UUID) (t : Tables) : Tables :=
  (delete_project id org (delete_activities id org t)).1.

(** The update statement, applied. *)
Definition updated (org : uuid.UUID) (project : Project) (t : Tables) : Tables :=
  (update_project (ID project) org (Title project) (Description project)
     (Active project) t).1.

(** Projects in ascending order of their titles. *)
Definition by_title (c : Collation) (a b : Project) : Prop :=
  coll_leb c (Title a) (Title b) = true.

(** A statement fails and the rollback fails as well. *)
Definition broken_connection : Faults :=
  {| begin_err := None; exec_err := Some (StoreError "statement failed");
     query_err := None; next_stop := None; scan_err := λ _, None;
     row_err := None; returned_id := None;
     rollback_err := Some (StoreError "conn closed"); commit_err := None |}.

(** The store answers the RETURNING clause of the delete with the
    identifier of another row. *)
Definition unexpected_row : Faults :=
  {| begin_err := None; exec_err := None; query_err := None;
     next_stop := None; scan_err := λ _, None; row_err := None;
     returned_id := Some (uuid.String sample.P3);
     rollback_err := None; commit_err := None |}.

(** The scan of the second row fails. *)
Definition second_scan_fails : Faults :=
  {| begin_err := None; exec_err := None; query_err := None;
     next_stop := None;
     scan_err := λ i, if decide (i = 1) then Some (StoreError "scan") else None;
     row_err := Some (StoreError "count"); returned_id := None;
     rollback_err := None; commit_err := None |}.

(** The stream breaks after the first row. *)
Definition stream_breaks : Faults :=
  {| begin_err := None; exec_err := None; query_err := None;
     next_stop := Some 1; scan_err := λ _, None; row_err := None;
     returned_id := None; rollback_err := None; commit_err := None |}.

End vocabulary.

(** A model that is its own JSON text, unless it is empty. *)
Definition sample_marshal (s : string) : errors.error + string :=
  if decide (s = "") then inl (errors.StoreError "unsupported value")
  else inr s.

(** Runs a write operation through every branch of its calls. *)
Ltac step_calls :=
  unfold repo.DeleteProjectByID, repo.InsertProject, repo.UpdateProject,
    pg.Begin, pg.Exec, pg.QueryRow_returning, pg.Rollback, pg.Commit,
    pg.delete_project, pg.update_project;
  repeat (case_match; simplify_eq/=).

(** * Properties *)

(** ** The spelling of a UUID reads back *)
Section uuid_facts.
Import uuid.

Lemma xtob_hex (b : byte) : xtob (hi b) (lo b) = Some b.
Proof. destruct b; vm_compute; reflexivity. Qed.

Lemma Parse_String (u : UUID) : Parse (String u) = Some u.
Proof.
  destruct u. unfold String, Parse, hex, dash; cbn -[xtob hi lo].
  rewrite !xtob_hex. reflexivity.
Qed.

End uuid_facts.

(** ** Facts about scanning and about the statements *)
Section statement_facts.
Import errors paged pg repo.

Lemma reads_through_healthy : reads_through healthy.
Proof. repeat split. Qed.

Lemma scan_project_row (r : ProjectRow) :
  scan_project r = Some (project_of_row r).
Proof.
  unfold scan_project, project_of_scan, uuid_text.
  rewrite Parse_String. reflexivity.
Qed.

Lemma scan_projects_Ok f i rows l :
  scan_projects f i rows = Ok l → l = project_of_row <$> rows.
Proof.
  revert i l. induction rows as [|r rows IH]; intros i l; simpl.
  - by intros [= <-].
  - destruct (scan_err f i); [done|]. rewrite scan_project_row.
    destruct (scan_projects f (S i) rows) as [l'| |] eqn:E; [|done..].
    intros [= <-]. by rewrite (IH _ _ E).
Qed.

Lemma scan_projects_rows f i rows :
  (∀ j, scan_err f j = None) →
  scan_projects f i rows = Ok (project_of_row <$> rows).
Proof.
  intros Hf. revert i. induction rows as [|r rows IH]; intros i; simpl; [done|].
  by rewrite Hf, scan_project_row, IH.
Qed.

Lemma filter_none {A} (P : A → Prop) `{!∀ x, Decision (P x)} (l : list A) :
  (∀ x, x ∈ l → ¬ P x) → filter P l = [].
Proof.
  induction l as [|x l IH]; intros Hl; [done|].
  rewrite filter_cons_False by (apply Hl; left).
  apply IH. intros y Hy. apply Hl. by right.
Qed.

(** Under the primary key a compound key selects the one row that
    carries the identifier, when its organization is the one asked for. *)
Lemma select_by_key_unique (t : Tables) (P : ProjectRow) (org : uuid.UUID) :
  NoDup (project_id <$> projects t) →
  P ∈ projects t →
  select_by_key (project_id P) org t = if decide (org_id P = org) then [P] else [].
Proof.
  unfold select_by_key. induction (projects t) as [|r l IH]; intros Hnd Hin.
  - by apply elem_of_nil in Hin.
  - rewrite fmap_cons in Hnd. apply NoDup_cons in Hnd as [Hr Hnd].
    apply elem_of_cons in Hin as [<-|Hin].
    + assert (filter (has_key (project_id P) org) l = []) as Hrest.
      { apply filter_none. intros x Hx [Hid _]. apply Hr.
        rewrite <- Hid. by apply list_elem_of_fmap_2. }
      rewrite filter_cons, Hrest. unfold has_key.
      destruct (decide (org_id P = org)) as [Ho|Ho].
      * by rewrite decide_True.
      * rewrite decide_False; [done|]. by intros [_ ?].
    + rewrite filter_cons_False; [by apply IH|].
      intros [Hid _]. apply Hr. rewrite Hid. by apply list_elem_of_fmap_2.
Qed.

Lemma filter_others_update id org (set : ProjectRow → ProjectRow)
    (l : list ProjectRow) :
  (∀ r, has_key id org r → has_key id org (set r)) →
  filter (λ r, ¬ has_key id org r)
    ((λ r, if decide (has_key id org r) then set r else r) <$> l)
  = filter (λ r, ¬ has_key id org r) l.
Proof.
  intros Hset. induction l as [|r l IH]; [done|]. rewrite fmap_cons.
  destruct (decide (has_key id org r)) as [Hk|Hk].
  - rewrite !filter_cons_False by naive_solver. done.
  - rewrite !filter_cons_True by done. by rewrite IH.
Qed.

Lemma filter_twice {A} (P : A → Prop) `{!∀ x, Decision (P x)} (l : list A) :
  filter P (filter P l) = filter P l.
Proof.
  induction l as [|x l IH]; [done|]. rewrite (filter_cons P x l).
  case_decide; [|done]. by rewrite filter_cons_True, IH.
Qed.

End statement_facts.

(** ** What a call leaves in the committed tables *)

Section effects.
Import errors paged pg repo.

Lemma DeleteProjectByID_committed f p org id :
  let r := DeleteProjectByID f p org id in
  (r.1 = None ∧ committed r.2 = deleted id org (committed p)
     ∧ ∃ row, row ∈ projects (committed p) ∧ has_key id org row)
  ∨ (r.1 ≠ None ∧ committed r.2 = committed p).
Proof.
  unfold deleted. step_calls; auto.
  left. repeat split.
  match goal with H : _ <$> filter _ _ = _ :: _ |- _ => rename H into Hids end.
  destruct (filter (has_key id org) (projects (committed p))) as [|row ?] eqn:E;
    [done|].
  assert (row ∈ filter (has_key id org) (projects (committed p)))
    as [??]%list_elem_of_filter by (rewrite E; left).
  by exists row.
Qed.

Lemma UpdateProject_committed f p org project :
  let r := UpdateProject f p org project in
  (r.1 = Ok project ∧ committed r.2 = updated org project (committed p))
  ∨ (r.2 = p ∧ ∃ err, r.1 = Err err).
Proof. unfold updated. step_calls; eauto. Qed.

Lemma InsertProject_committed f p project :
  let r := InsertProject f p project in
  (r.1 = Ok project
     ∧ (project_id (row_of_project project)
          ∉ (project_id <$> projects (committed p)))
     ∧ committed r.2 =
         {| projects := projects (committed p) ++ [row_of_project project];
            activities := activities (committed p) |})
  ∨ (committed r.2 = committed p ∧ ∃ err, r.1 = Err err).
Proof.
  unfold insert_project. step_calls; eauto.
  unfold insert_project in *. case_decide; simplify_eq/=. eauto.
Qed.

End effects.

(** ** Organization-scoped isolation *)
Section isolation.
Import errors paged pg repo.

Lemma take_elem_of {A} (x : A) (n : nat) (l : list A) : x ∈ take n l → x ∈ l.
Proof.
  intros (i & Hi & _)%elem_of_take. by apply list_elem_of_lookup_2 with i.
Qed.

(** The rows a listing query streams are rows of the organization. *)
Lemma select_page_rows c sc f org limit offset t rows r :
  Query f (select_page c sc org limit offset) t = inr rows →
  r ∈ pending rows → r ∈ projects t ∧ org_id r = org.
Proof.
  assert (∀ x, x ∈ pending (select_page c sc org limit offset t) →
            x ∈ projects t ∧ org_id x = org) as Hsel.
  { intros x. unfold select_page. case_decide; simpl.
    - by intros ?%elem_of_nil.
    - intros Hx%take_elem_of. apply subseteq_drop in Hx.
      unfold order_by_title in Hx.
      rewrite merge_sort_Permutation, scan_perm in Hx.
      apply list_elem_of_filter in Hx. tauto. }
  unfold Query. destruct (query_err f); [done|].
  destruct (next_stop f); intros [= <-]; simpl; [|by apply Hsel].
  intros Hr%take_elem_of. by apply Hsel.
Qed.

Lemma select_by_ids_rows c sc f org ids t rows r :
  Query f (select_by_ids c sc org ids) t = inr rows →
  r ∈ pending rows → r ∈ projects t ∧ org_id r = org ∧ project_id r ∈ ids.
Proof.
  assert (∀ x, x ∈ pending (select_by_ids c sc org ids t) →
            x ∈ projects t ∧ org_id x = org ∧ project_id x ∈ ids) as Hsel.
  { intros x. unfold select_by_ids, order_by_title; simpl.
    rewrite merge_sort_Permutation, scan_perm.
    intros Hx%list_elem_of_filter. tauto. }
  unfold Query. destruct (query_err f); [done|].
  destruct (next_stop f); intros [= <-]; simpl; [|by apply Hsel].
  intros Hr%take_elem_of. by apply Hsel.
Qed.

(** C1, as the code has it.  Under the primary key of the table, a
    project stored under one organization is not found by a caller that
    presents another one, and is found by a caller that presents its own,
    with the identifier, title, description (the empty string for NULL) and
    active flag the row holds now, and with the zero UUID, not the stored
    organization, as OrganizationID; a point lookup answers with a row that
    carries both halves of the key, the two listings answer with rows of
    the organization only, and an update or a delete leaves every row with
    another key, and every activity with another key, as it was. *)
Theorem organization_isolation (f : Faults) (p : Pool) (P : ProjectRow)
    (O2 : uuid.UUID) :
  let handed_out (r : ProjectRow) : Project :=
    {| ID := project_id r; OrganizationID := uuid.Nil; Title := title r;
       Description := match description r with Some d => d | None => "" end;
       Active := active r |} in
  row_err f = None →
  NoDup (project_id <$> projects (committed p)) →
  P ∈ projects (committed p) →
  O2 ≠ org_id P →
  FindProjectByID f p O2 (project_id P) = Err ErrProjectNotFound
  ∧ FindProjectByID f p (org_id P) (project_id P) = Ok (handed_out P)
  ∧ (∀ org id project,
       FindProjectByID f p org id = Ok project →
       ∃ r, r ∈ projects (committed p) ∧ has_key id org r
            ∧ project = handed_out r)
  ∧ (∀ c sc f' org ids l project,
       FindProjectsByIDs c sc f' p org ids = Ok l → project ∈ l →
       ∃ r, r ∈ projects (committed p) ∧ org_id r = org ∧ project_id r ∈ ids
            ∧ project = handed_out r)
  ∧ (∀ c sc f' org params page project,
       FindProjects c sc f' p org params = Ok page → project ∈ Projects page →
       ∃ r, r ∈ projects (committed p) ∧ org_id r = org
            ∧ project = handed_out r)
  ∧ (∀ f' org project,
       let p' := (UpdateProject f' p org project).2 in
       filter (λ r, ¬ has_key (ID project) org r) (projects (committed p'))
       = filter (λ r, ¬ has_key (ID project) org r) (projects (committed p))
       ∧ activities (committed p') = activities (committed p))
  ∧ (∀ f' org id,
       let p' := (DeleteProjectByID f' p org id).2 in
       filter (λ r, ¬ has_key id org r) (projects (committed p'))
       = filter (λ r, ¬ has_key id org r) (projects (committed p))
       ∧ filter (λ a, ¬ activity_has_key id org a) (activities (committed p'))
         = filter (λ a, ¬ activity_has_key id org a) (activities (committed p))).
Proof.
  intros handed_out Hf Hkey HP HO.
  assert (∀ r, project_of_row r = handed_out r) as Hout.
  { intros r. unfold project_of_row, handed_out, NullString_String.
    by destruct (description r). }
  setoid_rewrite <- Hout. clear Hout handed_out.
  split; [|split; [|split; [|split; [|split; [|split]]]]].
  - unfold FindProjectByID, QueryRow_project. rewrite Hf.
    rewrite (select_by_key_unique _ P O2 Hkey HP).
    by rewrite decide_False.
  - unfold FindProjectByID, QueryRow_project. rewrite Hf.
    rewrite (select_by_key_unique _ P (org_id P) Hkey HP).
    rewrite decide_True by done. by rewrite scan_project_row.
  - intros org id project. unfold FindProjectByID, QueryRow_project.
    rewrite Hf. unfold select_by_key.
    destruct (filter (has_key id org) (projects (committed p))) as [|r l] eqn:E;
      [done|].
    rewrite scan_project_row. intros [= <-].
    assert (r ∈ filter (has_key id org) (projects (committed p)))
      as [??]%list_elem_of_filter by (rewrite E; left).
    by exists r.
  - intros c sc f' org ids l project. unfold FindProjectsByIDs.
    destruct (Query _ _ _) as [e|rows] eqn:Hq; [done|].
    intros ->%scan_projects_Ok (r & -> & Hr)%list_elem_of_fmap.
    exists r. destruct (select_by_ids_rows _ _ _ _ _ _ _ _ Hq Hr) as (?&?&?).
    done.
  - intros c sc f' org params page project. unfold FindProjects.
    destruct (Query _ _ _) as [e|rows] eqn:Hq; [done|].
    destruct (scan_projects f' 0 (pending rows)) as [l| |] eqn:E; [|done..].
    apply scan_projects_Ok in E as ->.
    destruct (QueryRow_count _ _); [done|]. intros [= <-]; simpl.
    intros (r & -> & Hr)%list_elem_of_fmap.
    exists r. destruct (select_page_rows _ _ _ _ _ _ _ _ _ Hq Hr). done.
  - intros f' org project p'. subst p'.
    destruct (UpdateProject_committed f' p org project) as [[_ ->]|[-> _]];
      [|done].
    unfold updated, update_project; simpl. split; [|done].
    apply filter_others_update. intros r [??]. by split.
  - intros f' org id p'. subst p'.
    destruct (DeleteProjectByID_committed f' p org id) as [(_ & -> & _)|[_ ->]];
      [|done].
    unfold deleted, delete_project, delete_activities; simpl.
    split; apply filter_twice.
Qed.

Lemma organization_isolation_witness :
  FindProjectByID healthy sample.pool1 sample.orgA sample.P3
    = Err ErrProjectNotFound
  ∧ FindProjectByID healthy sample.pool1 sample.orgB sample.P3
    = Ok {| ID := sample.P3; OrganizationID := uuid.Nil; Title := "Beta";
            Description := "other tenant"; Active := false |}.
Proof.
  destruct (organization_isolation healthy sample.pool1 sample.row3 sample.orgA)
    as (H1 & H2 & _).
  - reflexivity.
  - apply (bool_decide_unpack _). vm_compute. exact I.
  - simpl. right. left.
  - discriminate.
  - split; [exact H1 | exact H2].
Defined.

(** C1, as stated, fails: the project that the owning organization finds
    does not carry the organization the row is stored under. *)
Lemma lookup_drops_the_stored_organization :
  sample.row3 ∈ projects (committed sample.pool1)
  ∧ ∃ found,
      FindProjectByID healthy sample.pool1 (org_id sample.row3)
        (project_id sample.row3) = Ok found
      ∧ OrganizationID found ≠ org_id sample.row3.
Proof.
  split; [simpl; right; left|].
  eexists. split; [reflexivity|]. discriminate.
Qed.

(** C9.  Whatever the faults, a project handed out by one of the three
    read operations carries the zero UUID as its OrganizationID: the
    organization only filters the rows, and the field is never set. *)
Theorem read_operations_drop_organization :
  (∀ f p org id project,
     FindProjectByID f p org id = Ok project →
     OrganizationID project = uuid.Nil)
  ∧ (∀ c sc f p org ids l,
       FindProjectsByIDs c sc f p org ids = Ok l →
       Forall (λ project, OrganizationID project = uuid.Nil) l)
  ∧ (∀ c sc f p org params page,
       FindProjects c sc f p org params = Ok page →
       Forall (λ project, OrganizationID project = uuid.Nil) (Projects page)).
Proof.
  assert (∀ f i rows l, scan_projects f i rows = Ok l →
            Forall (λ project, OrganizationID project = uuid.Nil) l) as Hscan.
  { intros f i rows l ->%scan_projects_Ok. by apply Forall_fmap, Forall_true. }
  split; [|split].
  - intros f p org id project. unfold FindProjectByID.
    destruct (QueryRow_project _ _) as [err|r]; [by case_match|].
    rewrite scan_project_row. by intros [= <-].
  - intros c sc f p org ids l. unfold FindProjectsByIDs.
    destruct (Query _ _ _) as [err|rows]; [done|]. apply Hscan.
  - intros c sc f p org params page. unfold FindProjects.
    destruct (Query _ _ _) as [err|rows]; [done|].
    destruct (scan_projects f 0 (pending rows)) as [l| |] eqn:E; [|done..].
    destruct (QueryRow_count _ _); [done|]. intros [= <-]. simpl. eauto.
Qed.

Lemma read_operations_drop_organization_witness :
  ∃ project,
    FindProjectByID healthy sample.pool1 sample.orgA sample.P1 = Ok project
    ∧ OrganizationID project = uuid.Nil.
Proof.
  eexists. split; [reflexivity|].
  apply (proj1 read_operations_drop_organization healthy sample.pool1
           sample.orgA sample.P1).
  reflexivity.
Defined.

(** The primary key survives every write of the repository. *)
Lemma primary_key_preserved (f : Faults) (p : Pool) :
  NoDup (project_id <$> projects (committed p)) →
  (∀ project,
     NoDup (project_id <$> projects (committed (InsertProject f p project).2)))
  ∧ (∀ org project,
       NoDup (project_id <$> projects (committed (UpdateProject f p org project).2)))
  ∧ (∀ org id,
       NoDup (project_id <$> projects (committed (DeleteProjectByID f p org id).2))).
Proof.
  intros Hkey. split; [|split].
  - intros project.
    destruct (InsertProject_committed f p project) as [(_ & Hfresh & ->)|[-> _]];
      [|done].
    simpl. rewrite fmap_app. apply NoDup_app. split; [done|]. split.
    + intros x Hx ->%list_elem_of_singleton. done.
    + apply NoDup_singleton.
  - intros org project.
    destruct (UpdateProject_committed f p org project) as [[_ ->]|[-> _]];
      [|done].
    unfold updated, update_project; simpl.
    rewrite <- list_fmap_compose.
    erewrite list_fmap_ext; [exact Hkey|].
    intros i r _. simpl. by case_decide.
  - intros org id.
    destruct (DeleteProjectByID_committed f p org id) as [(_ & -> & _)|[_ ->]];
      [|done].
    unfold deleted, delete_project, delete_activities; simpl.
    eapply sublist_NoDup; [exact Hkey|].
    apply fmap_sublist. apply (sublist_filter (λ r, ¬ has_key id org r)).
Qed.

End isolation.

(** ** Insert, then find *)
Section round_trip.
Import errors paged pg repo.

(** C8, as the code has it.  After a successful insert, a find by the
    organization and the identifier of the inserted project answers with
    the inserted identifier, title, description and active flag, an empty
    description being the empty string; its OrganizationID is the zero
    UUID, not the organization that was inserted. *)
Theorem insert_then_find (f f' : Faults) (p p' : Pool) (project inserted : Project) :
  InsertProject f p project = (Ok inserted, p') →
  row_err f' = None →
  inserted = project
  ∧ FindProjectByID f' p' (OrganizationID project) (ID project)
    = Ok {| ID := ID project; OrganizationID := uuid.Nil;
            Title := Title project; Description := Description project;
            Active := Active project |}.
Proof.
  intros Hins Hf'.
  destruct (InsertProject_committed f p project) as [(Hok & Hfresh & Hc)|[_ [e He]]];
    rewrite Hins in *; simpl in *; [|done].
  split; [congruence|].
  unfold FindProjectByID, QueryRow_project, select_by_key.
  rewrite Hf', Hc; simpl. rewrite filter_app.
  rewrite (filter_none (has_key (ID project) (OrganizationID project))).
  - rewrite filter_cons_True by done. simpl. by rewrite scan_project_row.
  - intros r Hr [Hid _]. apply Hfresh. rewrite <- Hid.
    by apply list_elem_of_fmap_2.
Qed.

Lemma insert_then_find_witness :
  FindProjectByID healthy (InsertProject healthy sample.empty sample.alpha).2
    sample.orgA sample.P1
  = Ok {| ID := sample.P1; OrganizationID := uuid.Nil; Title := "Alpha";
          Description := ""; Active := true |}.
Proof.
  apply (insert_then_find healthy healthy sample.empty _ sample.alpha sample.alpha).
  - reflexivity.
  - reflexivity.
Defined.

(** C8, as stated, fails: the project that is found differs from the one
    that was inserted in its OrganizationID. *)
Lemma insert_then_find_not_identical :
  let r := InsertProject healthy sample.empty sample.alpha in
  r.1 = Ok sample.alpha
  ∧ FindProjectByID healthy r.2 (OrganizationID sample.alpha) (ID sample.alpha)
    ≠ Ok sample.alpha.
Proof. split; [reflexivity|]. vm_compute. discriminate. Qed.

End round_trip.

(** ** Transactions: delete, rollback, and what stays open *)
Section transactions.
Import errors paged pg repo.

Lemma DeleteProjectByID_success f p p' org id :
  DeleteProjectByID f p org id = (None, p') →
  p' = {| committed := deleted id org (committed p); open_txs := open_txs p;
          calls := calls p ++ [TxBegin; TxCommit] |}.
Proof.
  unfold deleted. step_calls; try done.
  intros [= <-]. by rewrite <- app_assoc.
Qed.

(** C2, as the code has it.  A successful delete has removed, in one
    transaction that was begun and committed, the activity rows of the
    project and organization and the project row, and nothing else;
    afterwards the project is not found, and no activity row that carries
    both the project and the organization remains.  Whatever the outcome,
    the committed tables are either untouched or hold both removals. *)
Theorem delete_cascades (f : Faults) (p p' : Pool) (org id : uuid.UUID) :
  DeleteProjectByID f p org id = (None, p') →
  committed p' = deleted id org (committed p)
  ∧ calls p' = calls p ++ [TxBegin; TxCommit]
  ∧ open_txs p' = open_txs p
  ∧ (∀ f', row_err f' = None →
       FindProjectByID f' p' org id = Err ErrProjectNotFound)
  ∧ (∀ a, a ∈ activities (committed p') ↔
          a ∈ activities (committed p)
          ∧ ¬ (activity_project_id a = id ∧ activity_org_id a = org))
  ∧ (∀ r, r ∈ projects (committed p') ↔
          r ∈ projects (committed p)
          ∧ ¬ (project_id r = id ∧ org_id r = org))
  ∧ (∀ f0 p0,
       let r := DeleteProjectByID f0 p0 org id in
       (r.1 = None ∧ committed r.2 = deleted id org (committed p0))
       ∨ (r.1 ≠ None ∧ committed r.2 = committed p0)).
Proof.
  intros Hdel.
  pose proof (DeleteProjectByID_success _ _ _ _ _ Hdel) as ->.
  split; [done|]. split; [done|]. split; [done|]. simpl.
  split; [|split; [|split]].
  - intros f' Hf'. unfold FindProjectByID, QueryRow_project, select_by_key.
    rewrite Hf'. unfold deleted, delete_project, delete_activities; simpl.
    rewrite (filter_none (has_key id org)); [done|].
    by intros r [Hr _]%list_elem_of_filter.
  - intros a. unfold deleted, delete_project, delete_activities; simpl.
    rewrite list_elem_of_filter. unfold activity_has_key. tauto.
  - intros r. unfold deleted, delete_project, delete_activities; simpl.
    rewrite list_elem_of_filter. unfold has_key. tauto.
  - intros f0 p0.
    destruct (DeleteProjectByID_committed f0 p0 org id) as [(?&?&_)|?]; auto.
Qed.

Lemma delete_cascades_witness :
  let p' := (DeleteProjectByID healthy sample.pool1 sample.orgA sample.P1).2 in
  FindProjectByID healthy p' sample.orgA sample.P1 = Err ErrProjectNotFound
  ∧ activities (committed p') = [sample.act x13 sample.P3 sample.orgB]
  ∧ ∀ a, a ∈ activities (committed p') →
         ¬ (activity_project_id a = sample.P1 ∧ activity_org_id a = sample.orgA).
Proof.
  intros p'.
  destruct (delete_cascades healthy sample.pool1 p' sample.orgA sample.P1)
    as (_ & _ & _ & Hfind & Hacts & _).
  - reflexivity.
  - split; [by apply Hfind|]. split; [reflexivity|].
    intros a Ha. by apply Hacts in Ha as [_ ?].
Defined.

(** C2, as stated, fails: project P1 of organization A has an activity
    under organization A and one under organization B.  The delete for
    organization A succeeds, and the activity under organization B still
    references the project. *)
Lemma delete_leaves_activity_of_other_organization :
  let r := DeleteProjectByID healthy sample.pool4 sample.orgA sample.P1 in
  r.1 = None
  ∧ activities (committed r.2) = [sample.act x14 sample.P1 sample.orgB]
  ∧ activity_project_id (sample.act x14 sample.P1 sample.orgB) = sample.P1.
Proof. by vm_compute. Qed.

(** C3.  When a statement inside the transaction of InsertProject or of
    DeleteProjectByID fails, the transaction is rolled back and the error
    of the statement is returned; when the rollback fails too, its error is
    returned instead, wrapped.  The committed tables stay as they were. *)
Theorem rollback_failure_escalation (f : Faults) (p : Pool) (err : error) :
  begin_err f = None →
  let surfaced :=
    match rollback_err f with
    | Some rb => Wrap rb "rollback error"
    | None => err
    end in
  let rolled_back :=
    {| committed := committed p; open_txs := open_txs p;
       calls := calls p ++ [TxBegin; TxRollback] |} in
  (∀ project,
     (Exec f {| working := committed p |}
        (insert_project (row_of_project project))).1 = Some err →
     InsertProject f p project = (Err surfaced, rolled_back))
  ∧ (∀ org id,
       exec_err f = Some err →
       DeleteProjectByID f p org id = (Some surfaced, rolled_back))
  ∧ (∀ org id,
       exec_err f = None → row_err f = Some err → Is err ErrNoRows = false →
       DeleteProjectByID f p org id = (Some surfaced, rolled_back)).
Proof.
  intros Hb surfaced rolled_back. subst surfaced rolled_back.
  repeat split.
  - intros project. unfold InsertProject, Begin, Rollback. rewrite Hb.
    destruct (Exec _ _ _) as [[e|] tx]; simpl; [|done]. intros [= ->].
    rewrite <- app_assoc. by destruct (rollback_err f).
  - intros org id He. unfold DeleteProjectByID, Begin, Exec, Rollback.
    rewrite Hb, He; simpl. rewrite <- app_assoc. by destruct (rollback_err f).
  - intros org id He Hr Hno.
    unfold DeleteProjectByID, Begin, Exec, QueryRow_returning, Rollback.
    rewrite Hb, He; simpl. rewrite Hr; simpl. rewrite Hno, <- app_assoc.
    by destruct (rollback_err f).
Qed.

Lemma rollback_failure_escalation_witness :
  InsertProject broken_connection sample.empty sample.alpha
  = (Err (Wrap (StoreError "conn closed") "rollback error"),
     {| committed := committed sample.empty; open_txs := 0;
        calls := [TxBegin; TxRollback] |})
  ∧ (DeleteProjectByID broken_connection sample.pool1 sample.orgA sample.P1).1
    = Some (Wrap (StoreError "conn closed") "rollback error").
Proof.
  split.
  - apply (rollback_failure_escalation broken_connection sample.empty
             (StoreError "statement failed")); reflexivity.
  - pose proof (rollback_failure_escalation broken_connection sample.pool1
             (StoreError "statement failed") eq_refl) as (_ & H & _).
    by rewrite (H sample.orgA sample.P1 eq_refl).
Defined.

End transactions.

(** ** Exit paths of the transactional operations *)
Section exit_paths.
Import errors paged pg repo.

(** C4 fails on one exit path of DeleteProjectByID: when the identifier
    that comes back differs from the one asked for, the operation returns
    ErrProjectNotFound with its transaction begun and neither committed
    nor rolled back. *)
Theorem delete_mismatch_leaves_transaction_open :
  DeleteProjectByID unexpected_row sample.pool1 sample.orgA sample.P1
  = (Some ErrProjectNotFound,
     {| committed := committed sample.pool1; open_txs := 1;
        calls := [TxBegin] |}).
Proof. vm_compute. reflexivity. Qed.

(** On every other path the transaction is closed before the operation
    returns: InsertProject always, DeleteProjectByID whenever the store
    answers with the identifier of the row it deleted. *)
Lemma transactions_closed (f : Faults) (p : Pool) :
  (∀ project, open_txs (InsertProject f p project).2 = open_txs p)
  ∧ (returned_id f = None →
     ∀ org id, open_txs (DeleteProjectByID f p org id).2 = open_txs p).
Proof.
  split.
  - intros project. step_calls; done.
  - intros Hid org id. step_calls; try done.
    exfalso.
    match goal with H : ¬ ¬ _ |- _ => clear H | _ => idtac end.
    match goal with H : default _ (returned_id f) ≠ _ |- _ => apply H end.
    rewrite Hid; simpl. unfold uuid_text. f_equal.
    match goal with H : _ <$> filter _ _ = _ :: _ |- _ => rename H into Hids end.
    destruct (filter (has_key id org) (projects (committed p))) as [|row l'] eqn:E;
      simplify_eq/=.
    assert (row ∈ filter (has_key id org) (projects (committed p)))
      as [[? ?] ?]%list_elem_of_filter by (rewrite E; left).
    done.
Qed.

(** C5.  When no stored row carries the pair of identifier and
    organization, UpdateProject and DeleteProjectByID leave the committed
    tables as they were, whatever else goes wrong, and fail with
    ErrProjectNotFound when the store itself does not fail; the delete has
    then rolled its transaction back. *)
Theorem not_found_leaves_store (f : Faults) (p : Pool) (org id : uuid.UUID)
    (project : Project) :
  ID project = id →
  (∀ r, r ∈ projects (committed p) → ¬ has_key id org r) →
  (UpdateProject f p org project).2 = p
  ∧ committed (DeleteProjectByID f p org id).2 = committed p
  ∧ (row_err f = None →
     (UpdateProject f p org project).1 = Err ErrProjectNotFound)
  ∧ (begin_err f = None → exec_err f = None → row_err f = None →
     rollback_err f = None →
     DeleteProjectByID f p org id
     = (Some ErrProjectNotFound,
        {| committed := committed p; open_txs := open_txs p;
           calls := calls p ++ [TxBegin; TxRollback] |})).
Proof.
  intros <- Hno.
  assert (filter (has_key (ID project) org) (projects (committed p)) = [])
    as Hnone by (by apply filter_none).
  split; [|split; [|split]].
  - unfold UpdateProject, QueryRow_returning, update_project.
    rewrite Hnone; simpl. destruct (row_err f); simpl; [by case_match|done].
  - destruct (DeleteProjectByID_committed f p org (ID project))
      as [(_ & _ & r & Hr & Hk)|[_ ?]]; [|done].
    by destruct (Hno r Hr).
  - intros Hf. unfold UpdateProject, QueryRow_returning, update_project.
    by rewrite Hf, Hnone.
  - intros Hb He Hr Hrb.
    unfold DeleteProjectByID, Begin, Exec, QueryRow_returning, Rollback,
      delete_project.
    rewrite Hb, He; simpl. rewrite Hr; simpl. rewrite Hnone; simpl.
    by rewrite Hrb, <- app_assoc.
Qed.

Lemma not_found_leaves_store_witness :
  UpdateProject healthy sample.pool1 sample.orgB sample.alpha
    = (Err ErrProjectNotFound, sample.pool1)
  ∧ (DeleteProjectByID healthy sample.pool1 sample.orgB sample.P1).1
    = Some ErrProjectNotFound
  ∧ committed (DeleteProjectByID healthy sample.pool1 sample.orgB sample.P1).2
    = committed sample.pool1.
Proof.
  destruct (not_found_leaves_store healthy sample.pool1 sample.orgB sample.P1
              sample.alpha) as (Hu & Hd & Hue & Hde).
  - reflexivity.
  - intros r Hr [Hid Horg]. simpl in Hr.
    repeat (apply elem_of_cons in Hr as [->|Hr]); try done.
    by apply elem_of_nil in Hr.
  - split; [|split].
    + rewrite <- Hu at 2. rewrite <- (Hue eq_refl). by destruct (UpdateProject _ _ _ _).
    + by rewrite (Hde eq_refl eq_refl eq_refl eq_refl).
    + exact Hd.
Defined.

End exit_paths.

(** ** Ordered reads *)
Section ordered_reads.
Import errors paged pg repo.

Lemma order_by_title_Permutation c (sc : Scan) rows :
  order_by_title c sc rows ≡ₚ rows.
Proof.
  unfold order_by_title. by rewrite merge_sort_Permutation, scan_perm.
Qed.

Lemma order_by_title_Sorted c (sc : Scan) rows :
  Sorted (title_le c) (order_by_title c sc rows).
Proof. apply (Sorted_merge_sort _). Qed.

(** Rows with pairwise different titles have one order by title only,
    whichever way they were scanned. *)
Lemma order_by_title_unique c (sc : Scan) (rows : list ProjectRow) :
  NoDup (title <$> rows) →
  order_by_title c sc rows = merge_sort (title_le c) rows.
Proof.
  intros Hnd. apply (Sorted_unique_strong (title_le c)).
  - intros r1 r2 H1 H2 H12 H21.
    rewrite order_by_title_Permutation in H1.
    rewrite merge_sort_Permutation in H2.
    pose proof (coll_antisym c _ _ H12 H21) as Ht.
    apply list_elem_of_lookup in H1 as [i Hi], H2 as [j Hj].
    assert (i = j) as ->; [|congruence].
    apply (NoDup_lookup (title <$> rows) i j (title r1)); [done|..];
      rewrite list_lookup_fmap; [by rewrite Hi | by rewrite Hj, Ht].
  - apply order_by_title_Sorted.
  - apply (Sorted_merge_sort _).
  - by rewrite order_by_title_Permutation, merge_sort_Permutation.
Qed.

(** C7.  When the read path goes through, FindProjectsByIDs hands back
    the projects of the organization whose identifier is among the ones
    asked for, each once, in ascending order of title; identifiers that are
    unknown or belong to another organization add nothing, and when no row
    matches, as with no identifier at all, the result is the empty
    sequence and not an error. *)
Theorem find_by_ids (c : Collation) (sc : Scan) (f : Faults) (p : Pool)
    (org : uuid.UUID) (ids : list uuid.UUID) :
  reads_through f →
  ∃ l,
    FindProjectsByIDs c sc f p org ids = Ok l
    ∧ l ≡ₚ project_of_row <$>
             filter (λ r, org_id r = org ∧ project_id r ∈ ids)
               (projects (committed p))
    ∧ Sorted (by_title c) l
    ∧ ((∀ r, r ∈ projects (committed p) → org_id r = org → project_id r ∉ ids) →
       l = [])
    ∧ (ids = [] → l = []).
Proof.
  intros (Hq & Hn & Hs & _).
  set (rows := filter (λ r, org_id r = org ∧ project_id r ∈ ids)
                 (projects (committed p))).
  exists (project_of_row <$> order_by_title c sc rows).
  assert ((∀ r, r ∈ projects (committed p) → org_id r = org → project_id r ∉ ids) →
          project_of_row <$> order_by_title c sc rows = []) as Hnone.
  { intros Hno. assert (rows = []) as ->.
    { apply filter_none. intros r Hr [Ho Hi]. by apply (Hno r). }
    pose proof (order_by_title_Permutation c sc []) as ->%Permutation_nil_r.
    done. }
  split; [|split; [|split; [|split]]].
  - unfold FindProjectsByIDs, Query, select_by_ids. rewrite Hq, Hn; simpl.
    by apply scan_projects_rows.
  - by rewrite order_by_title_Permutation.
  - apply (Sorted_fmap _ (title_le c)); [done|]. apply order_by_title_Sorted.
  - exact Hnone.
  - intros ->. apply Hnone. intros r _ _. apply not_elem_of_nil.
Qed.

Lemma find_by_ids_witness :
  FindProjectsByIDs bytewise heap_scan healthy sample.pool1 sample.orgA
    [sample.P3; sample.P1; sample.P2]
  = Ok [project_of_row sample.row1].
Proof.
  destruct (find_by_ids bytewise heap_scan healthy sample.pool1 sample.orgA
              [sample.P3; sample.P1; sample.P2] reads_through_healthy)
    as (l & Hl & _).
  rewrite Hl. vm_compute in Hl. by injection Hl as <-.
Defined.

End ordered_reads.

(** ** Listing page by page *)
Section pagination.
Import errors paged pg repo.

Lemma concat_slices {A} (l : list A) (size n : nat) :
  concat ((λ i, take size (drop (i * size) l)) <$> seq 0 n) = take (n * size) l.
Proof.
  induction n as [|n IH]; [done|].
  rewrite seq_S, fmap_app, concat_app, IH; simpl.
  rewrite app_nil_r, take_take_drop. f_equal. lia.
Qed.

Lemma total_pages_cover (total size : Z) :
  (0 ≤ total)%Z → (1 ≤ size)%Z → (total ≤ total_pages total size * size)%Z.
Proof.
  intros Ht Hs. unfold total_pages. rewrite decide_False by lia.
  pose proof (Z.div_mod (total + size - 1) size ltac:(lia)) as Hdm.
  pose proof (Z.mod_pos_bound (total + size - 1) size ltac:(lia)) as Hb.
  lia.
Qed.

Lemma total_pages_nonneg (total size : Z) :
  (0 ≤ total)%Z → (1 ≤ size)%Z → (0 ≤ total_pages total size)%Z.
Proof.
  intros Ht Hs. unfold total_pages. rewrite decide_False by lia.
  apply Z.div_pos; lia.
Qed.

(** One page of the listing, when the titles of the organization are
    pairwise different. *)
Lemma FindProjects_page (c : Collation) (sc : Scan) (f : Faults) (p : Pool)
    (org : uuid.UUID) (size k : Z) :
  (1 ≤ size)%Z → (1 ≤ k)%Z → reads_through f →
  let rows := filter (λ r, org_id r = org) (projects (committed p)) in
  NoDup (title <$> rows) →
  FindProjects c sc f p org {| Number := k; Size := size |}
  = Ok {| Projects :=
            project_of_row <$>
              take (Z.to_nat size)
                (drop (Z.to_nat (k - 1) * Z.to_nat size)
                   (merge_sort (title_le c) rows));
          Page := PageOfTotal {| Number := k; Size := size |}
                    (Z.of_nat (length rows)) |}.
Proof.
  intros Hs Hk (Hq & Hn & Hscan & Hr) rows Hnd.
  unfold FindProjects, Query, select_page, QueryRow_count, select_count, Offset.
  rewrite Hq, Hn, Hr; simpl.
  rewrite decide_False by nia. simpl.
  rewrite (scan_projects_rows f 0 _ Hscan).
  fold rows. rewrite (order_by_title_unique c sc rows Hnd).
  do 4 f_equal. rewrite Z2Nat.inj_mul by lia. done.
Qed.

(** C6, as the code has it.  For an organization whose project titles
    are pairwise different and a page size of at least one, however each
    page's query scans the table: the pages 1 to ceil(total/size), each
    with the total of the organization in its metadata, concatenate to the
    projects of the organization in ascending order of title, each once,
    also when there is none; a page beyond the last is the empty sequence
    with the same metadata, not an error. *)
Theorem pagination_with_distinct_titles (c : Collation) (sc : Z → Scan)
    (f : Faults) (p : Pool) (org : uuid.UUID) (size : Z) :
  (1 ≤ size)%Z →
  reads_through f →
  let rows := filter (λ r, org_id r = org) (projects (committed p)) in
  NoDup (title <$> rows) →
  let total := Z.of_nat (length rows) in
  let params k := {| Number := k; Size := size |} in
  let page k := FindProjects c (sc k) f p org (params k) in
  ∃ (sorted : list ProjectRow) (pages : list ProjectsPaged),
    sorted ≡ₚ rows
    ∧ Sorted (title_le c) sorted
    ∧ Forall2 (λ k pg, page k = Ok pg ∧ Page pg = PageOfTotal (params k) total)
        (seqZ 1 (total_pages total size)) pages
    ∧ concat (Projects <$> pages) = project_of_row <$> sorted
    ∧ (∀ k, (total_pages total size < k)%Z →
         page k = Ok {| Projects := []; Page := PageOfTotal (params k) total |}).
Proof.
  intros Hs Hf rows Hnd total params page.
  set (sorted := merge_sort (title_le c) rows).
  set (slice (k : Z) :=
         take (Z.to_nat size) (drop (Z.to_nat (k - 1) * Z.to_nat size) sorted)).
  assert (∀ k, (1 ≤ k)%Z →
            page k = Ok {| Projects := project_of_row <$> slice k;
                           Page := PageOfTotal (params k) total |}) as Hpage.
  { intros k Hk. by apply FindProjects_page. }
  assert (length sorted = length rows) as Hlen.
  { apply Permutation_length, merge_sort_Permutation. }
  pose proof (total_pages_cover total size ltac:(lia) Hs) as Hcover.
  exists sorted,
    ((λ k, {| Projects := project_of_row <$> slice k;
              Page := PageOfTotal (params k) total |})
       <$> seqZ 1 (total_pages total size)).
  split; [apply merge_sort_Permutation|].
  split; [apply (Sorted_merge_sort _)|].
  split; [|split].
  - apply Forall2_fmap_r, Forall_Forall2_diag, Forall_forall.
    intros k [Hk _]%elem_of_seqZ. split; [by apply Hpage | done].
  - rewrite <- list_fmap_compose. unfold seqZ.
    rewrite <- list_fmap_compose.
    transitivity (concat ((λ i, take (Z.to_nat size)
                                 (drop (i * Z.to_nat size)
                                    (project_of_row <$> sorted)))
                            <$> seq 0 (Z.to_nat (total_pages total size)))).
    + f_equal. apply list_fmap_ext. intros _ i _. simpl. unfold slice.
      rewrite fmap_take, fmap_drop. do 3 f_equal. lia.
    + rewrite concat_slices. apply take_ge. rewrite length_fmap, Hlen. nia.
  - intros k Hk.
    pose proof (total_pages_nonneg total size ltac:(lia) Hs) as Hpos.
    rewrite Hpage by lia. do 2 f_equal. unfold slice. rewrite drop_ge; [by rewrite take_nil|].
    rewrite Hlen. nia.
Qed.

Lemma pagination_with_distinct_titles_witness :
  ∃ sorted pages,
    sorted ≡ₚ [sample.row4; sample.row1]
    ∧ Forall2
        (λ k pg,
           FindProjects bytewise backward_scan healthy sample.pool3 sample.orgA
             {| Number := k; Size := 1 |} = Ok pg)
        [1; 2]%Z pages
    ∧ concat (Projects <$> pages) = project_of_row <$> sorted.
Proof.
  destruct (pagination_with_distinct_titles bytewise (λ _, backward_scan)
              healthy sample.pool3 sample.orgA 1)
    as (sorted & pages & Hp & _ & Hall & Hcat & _).
  - lia.
  - exact reads_through_healthy.
  - apply (bool_decide_unpack _). vm_compute. exact I.
  - exists sorted, pages. split; [exact Hp|]. split; [|exact Hcat].
    eapply Forall2_impl; [exact Hall|]. by intros k pg [? _].
Defined.

(** C6, as stated, fails.  Two projects of organization A carry the title
    Alpha.  The query of page 1 reads the table forward and the query of
    page 2 reads it backward; both orders are ascending by title.  Page 1
    and page 2 then hold the same project, and the other one is on no
    page. *)
Lemma pagination_repeats_a_project :
  let page sc k :=
    FindProjects bytewise sc healthy sample.pool2 sample.orgA
      {| Number := k; Size := 1 |} in
  ∃ pg1 pg2,
    page heap_scan 1%Z = Ok pg1
    ∧ page backward_scan 2%Z = Ok pg2
    ∧ TotalPages (Page pg1) = 2%Z
    ∧ Projects pg1 ++ Projects pg2
      = [project_of_row sample.row1; project_of_row sample.row1]
    ∧ project_of_row sample.row2 ∉ Projects pg1 ++ Projects pg2.
Proof.
  eexists _, _. split; [vm_compute; reflexivity|].
  split; [vm_compute; reflexivity|].
  split; [reflexivity|]. split; [reflexivity|].
  simpl. intros Hin.
  repeat (apply elem_of_cons in Hin as [Hin|Hin]; [discriminate Hin|]).
  by apply elem_of_nil in Hin.
Qed.

End pagination.

(** ** Problem responses *)
Section problem_responses.
Import errors http problem util.

Variable quote : string → string.

Lemma JSONString_title (title : string) :
  JSONString quote (New [Title title])
  = "{" +:+ (quote "title" +:+ ":" +:+ quote title) +:+ "}".
Proof. vm_compute. reflexivity. Qed.

Lemma JSONString_title_reason (title : string) (err : error) :
  JSONString quote (New [Title title; Wrap err])
  = "{" +:+ ((quote "reason" +:+ ":" +:+ quote (errors.Error err)) +:+ "," +:+
             (quote "title" +:+ ":" +:+ quote title)) +:+ "}".
Proof.
  unfold New; simpl. unfold Wrap, Title. generalize (errors.Error err) as reason.
  intros reason. vm_compute. reflexivity.
Qed.

Lemma Error_status (w : ResponseWriter) (msg : string) (code : Z) :
  status (http.Error w msg code) = Some (default code (status w)).
Proof. unfold http.Error, Write, WriteHeader; simpl. by destruct (status w). Qed.

Lemma Error_body (w : ResponseWriter) (msg : string) (code : Z) :
  body (http.Error w msg code) = body w +:+ msg +:+ newline.
Proof. unfold http.Error, Write, WriteHeader; simpl. by destruct (status w). Qed.

(** C10.  In production mode the response is the one of the document
    that holds the title "internal server error" and nothing else, the
    same for every error; outside production mode the document holds the
    text of the error as well.  In both modes the status is 500 unless a
    status line had been sent before, and the error is written to the
    log. *)
Theorem problem_response_confidential (w : ResponseWriter) (err : error)
    (log : list string) :
  let title := quote "title" +:+ ":" +:+ quote "internal server error" in
  let reason := quote "reason" +:+ ":" +:+ quote (errors.Error err) in
  (RenderProblemJSON quote w true err log).1
    = http.Error w ("{" +:+ title +:+ "}") 500
  ∧ body (RenderProblemJSON quote w true err log).1
    = body w +:+ ("{" +:+ title +:+ "}") +:+ newline
  ∧ (∀ err' log',
       (RenderProblemJSON quote w true err' log').1
       = (RenderProblemJSON quote w true err log).1)
  ∧ (RenderProblemJSON quote w false err log).1
    = http.Error w ("{" +:+ (reason +:+ "," +:+ title) +:+ "}") 500
  ∧ body (RenderProblemJSON quote w false err log).1
    = body w +:+ ("{" +:+ (reason +:+ "," +:+ title) +:+ "}") +:+ newline
  ∧ (∀ isProduction,
       status (RenderProblemJSON quote w isProduction err log).1
       = Some (default 500%Z (status w)))
  ∧ (∀ isProduction,
       (RenderProblemJSON quote w isProduction err log).2
       = log ++ ["internal server error: " +:+ errors.Error err]).
Proof.
  intros title reason. subst title reason.
  assert (∀ e l, (RenderProblemJSON quote w true e l).1
            = http.Error w ("{" +:+ (quote "title" +:+ ":" +:+
                                     quote "internal server error") +:+ "}") 500)
    as Hprod.
  { intros e l. unfold RenderProblemJSON; cbn [negb fst].
    by rewrite JSONString_title. }
  assert ((RenderProblemJSON quote w false err log).1
            = http.Error w ("{" +:+ ((quote "reason" +:+ ":" +:+
                                      quote (errors.Error err)) +:+ "," +:+
                                     (quote "title" +:+ ":" +:+
                                      quote "internal server error")) +:+ "}") 500)
    as Hdev.
  { unfold RenderProblemJSON; cbn [negb fst].
    by rewrite JSONString_title_reason. }
  split; [apply Hprod|].
  split; [rewrite Hprod; apply Error_body|].
  split; [intros err' log'; by rewrite !Hprod|].
  split; [apply Hdev|].
  split; [rewrite Hdev; apply Error_body|].
  split.
  - intros []; [rewrite Hprod | rewrite Hdev]; apply Error_status.
  - by intros [].
Qed.

End problem_responses.

(** * Further properties of the repository *)

(** ** Scanning rows *)
Section scanning.
Import errors paged pg repo.

Lemma scan_projects_first_error f i rows n e :
  n < length rows →
  scan_err f (i + n) = Some e →
  (∀ j, j < n → scan_err f (i + j) = None) →
  scan_projects f i rows = Err e.
Proof.
  revert i n. induction rows as [|r rows IH]; intros i n Hn He Hbefore;
    simpl in *; [lia|].
  destruct n as [|n].
  - rewrite Nat.add_0_r in He. by rewrite He.
  - rewrite <- (Nat.add_0_r i), (Hbefore 0) by lia. rewrite scan_project_row.
    rewrite Nat.add_0_r.
    rewrite (IH (S i) n); [done|lia|..].
    + by replace (S i + n) with (i + S n) by lia.
    + intros j Hj. replace (S i + j) with (i + S j) by lia.
      apply Hbefore. lia.
Qed.

(** X2.  When the scan of a streamed row fails, both listings return the
    error of the first row whose scan fails and no projects at all; for
    FindProjects this is so whether or not the count would have failed
    too. *)
Theorem first_scan_failure_is_returned (c : Collation) (sc : Scan) (f : Faults)
    (p : Pool) (org : uuid.UUID) (rows : Rows) (n : nat) (e : error) :
  n < length (pending rows) →
  scan_err f n = Some e →
  (∀ j, j < n → scan_err f j = None) →
  (∀ ids,
     Query f (select_by_ids c sc org ids) (committed p) = inr rows →
     FindProjectsByIDs c sc f p org ids = Err e)
  ∧ (∀ params,
       Query f (select_page c sc org (Size params) (Offset params)) (committed p)
         = inr rows →
       FindProjects c sc f p org params = Err e).
Proof.
  intros Hn He Hbefore.
  assert (scan_projects f 0 (pending rows) = Err e) as Hscan.
  { by apply (scan_projects_first_error f 0 _ n). }
  split.
  - intros ids Hq. unfold FindProjectsByIDs. by rewrite Hq.
  - intros params Hq. unfold FindProjects. by rewrite Hq, Hscan.
Qed.

Lemma first_scan_failure_is_returned_witness :
  FindProjects bytewise heap_scan second_scan_fails sample.pool2 sample.orgA
    {| Number := 1; Size := 10 |}
  = Err (StoreError "scan").
Proof.
  eapply (first_scan_failure_is_returned bytewise heap_scan second_scan_fails
            sample.pool2 sample.orgA _ 1).
  4: reflexivity.
  - vm_compute. lia.
  - reflexivity.
  - intros j Hj. assert (j = 0) as -> by lia. reflexivity.
Defined.

(** X3.  A row stream that breaks after n rows is not reported: the
    listing by identifiers returns, as a success, the first n of the
    projects it would have returned.  [rows.Err()] is never read. *)
Theorem broken_stream_is_not_reported (c : Collation) (sc : Scan) (f : Faults)
    (p : Pool) (org : uuid.UUID) (ids : list uuid.UUID) (n : nat) :
  query_err f = None →
  next_stop f = Some n →
  (∀ i, scan_err f i = None) →
  FindProjectsByIDs c sc f p org ids
  = Ok (take n (project_of_row <$>
          order_by_title c sc
            (filter (λ r, org_id r = org ∧ project_id r ∈ ids)
               (projects (committed p))))).
Proof.
  intros Hq Hn Hs. unfold FindProjectsByIDs, Query, select_by_ids.
  rewrite Hq, Hn; simpl. rewrite (scan_projects_rows f 0 _ Hs).
  by rewrite fmap_take.
Qed.

Lemma broken_stream_is_not_reported_witness :
  FindProjectsByIDs bytewise heap_scan stream_breaks sample.pool3 sample.orgA
    [sample.P1; sample.P2]
  = Ok [project_of_row sample.row1]
  ∧ FindProjectsByIDs bytewise heap_scan healthy sample.pool3 sample.orgA
      [sample.P1; sample.P2]
    = Ok [project_of_row sample.row1; project_of_row sample.row4].
Proof.
  split; [|reflexivity].
  rewrite (broken_stream_is_not_reported bytewise heap_scan stream_breaks
             sample.pool3 sample.orgA [sample.P1; sample.P2] 1);
    [reflexivity|reflexivity|reflexivity|].
  intros i. reflexivity.
Defined.

(** X4.  The listing by identifiers depends on the identifiers as a set:
    their order and their repetitions change nothing. *)
Theorem find_by_ids_of_a_set (c : Collation) (sc : Scan) (f : Faults) (p : Pool)
    (org : uuid.UUID) (ids1 ids2 : list uuid.UUID) :
  (∀ id, id ∈ ids1 ↔ id ∈ ids2) →
  FindProjectsByIDs c sc f p org ids1 = FindProjectsByIDs c sc f p org ids2.
Proof.
  intros Hset. unfold FindProjectsByIDs, Query, select_by_ids.
  rewrite (list_filter_iff (λ r, org_id r = org ∧ project_id r ∈ ids1)
             (λ r, org_id r = org ∧ project_id r ∈ ids2)); [done|].
  intros r. by rewrite Hset.
Qed.

Lemma find_by_ids_of_a_set_witness :
  FindProjectsByIDs bytewise heap_scan healthy sample.pool3 sample.orgA
    [sample.P1; sample.P2; sample.P1]
  = FindProjectsByIDs bytewise heap_scan healthy sample.pool3 sample.orgA
      [sample.P2; sample.P1].
Proof.
  apply find_by_ids_of_a_set. intros id.
  rewrite !elem_of_cons, !elem_of_nil. tauto.
Defined.

End scanning.

(** ** Pages *)
Section pages.
Import errors paged pg repo.

Lemma StronglySorted_sublist {A} (R : relation A) (l1 l2 : list A) :
  l1 `sublist_of` l2 → StronglySorted R l2 → StronglySorted R l1.
Proof.
  induction 1 as [|x l1 l2 Hsub IH|x l1 l2 Hsub IH]; intros Hs.
  - constructor.
  - apply StronglySorted_inv in Hs as [Hs Hx]. constructor; [by apply IH|].
    apply Forall_forall. intros y Hy. rewrite Forall_forall in Hx.
    apply Hx. by eapply elem_of_sublist.
  - apply StronglySorted_inv in Hs as [Hs _]. by apply IH.
Qed.

(** What a page query streams is a run of the ordered rows of the
    organization, no longer than the limit. *)
Lemma select_page_pending c sc f org limit offset t rows :
  Query f (select_page c sc org limit offset) t = inr rows →
  pending rows `sublist_of`
    order_by_title c sc (filter (λ r, org_id r = org) (projects t))
  ∧ length (pending rows) ≤ Z.to_nat limit.
Proof.
  assert (pending (select_page c sc org limit offset t) `sublist_of`
            order_by_title c sc (filter (λ r, org_id r = org) (projects t))
          ∧ length (pending (select_page c sc org limit offset t))
            ≤ Z.to_nat limit) as [Hsub Hlen].
  { unfold select_page. case_decide; simpl.
    - split; [apply sublist_nil_l | lia].
    - split.
      + etrans; [apply sublist_take | apply sublist_drop].
      + rewrite length_take. lia. }
  unfold Query. destruct (query_err f); [done|].
  destruct (next_stop f) as [n|]; intros [= <-]; simpl; [|done].
  split.
  - etrans; [apply sublist_take | done].
  - rewrite length_take. lia.
Qed.

(** X5.  Whatever the faults and the scan, a page that FindProjects
    returns holds at most Size projects, in ascending order of title, and
    its metadata are those of the request and of the number of projects of
    the organization. *)
Theorem page_is_bounded_and_sorted (c : Collation) (sc : Scan) (f : Faults)
    (p : Pool) (org : uuid.UUID) (params : PageParams) (page : ProjectsPaged) :
  FindProjects c sc f p org params = Ok page →
  length (Projects page) ≤ Z.to_nat (Size params)
  ∧ Sorted (by_title c) (Projects page)
  ∧ Page page
    = PageOfTotal params
        (Z.of_nat (length (filter (λ r, org_id r = org)
                             (projects (committed p))))).
Proof.
  unfold FindProjects.
  destruct (Query _ _ _) as [e|rows] eqn:Hq; [done|].
  destruct (scan_projects f 0 (pending rows)) as [l| |] eqn:E; [|done..].
  apply scan_projects_Ok in E as ->.
  unfold QueryRow_count, select_count. destruct (row_err f); [done|].
  intros [= <-]; simpl.
  destruct (select_page_pending _ _ _ _ _ _ _ _ Hq) as [Hsub Hlen].
  split; [by rewrite length_fmap|]. split; [|done].
  apply (Sorted_fmap _ (title_le c)); [done|].
  apply StronglySorted_Sorted.
  apply (StronglySorted_sublist _ _ _ Hsub).
  apply Sorted_StronglySorted; [apply _|]. apply (Sorted_merge_sort _).
Qed.

Lemma page_is_bounded_and_sorted_witness :
  ∃ page,
    FindProjects bytewise backward_scan healthy sample.pool2 sample.orgA
      {| Number := 1; Size := 1 |} = Ok page
    ∧ length (Projects page) ≤ 1
    ∧ TotalElements (Page page) = 2%Z.
Proof.
  eexists. split; [reflexivity|].
  edestruct (page_is_bounded_and_sorted bytewise backward_scan healthy
               sample.pool2 sample.orgA {| Number := 1; Size := 1 |})
    as (Hlen & _ & Hpage); [reflexivity|].
  split; [exact Hlen|]. by rewrite Hpage.
Defined.

(** One page of the listing, for any titles. *)
Lemma FindProjects_slice (c : Collation) (sc : Scan) (f : Faults) (p : Pool)
    (org : uuid.UUID) (size k : Z) :
  (1 ≤ size)%Z → (1 ≤ k)%Z → reads_through f →
  let rows := filter (λ r, org_id r = org) (projects (committed p)) in
  FindProjects c sc f p org {| Number := k; Size := size |}
  = Ok {| Projects :=
            project_of_row <$>
              take (Z.to_nat size)
                (drop (Z.to_nat (k - 1) * Z.to_nat size)
                   (order_by_title c sc rows));
          Page := PageOfTotal {| Number := k; Size := size |}
                    (Z.of_nat (length rows)) |}.
Proof.
  intros Hs Hk (Hq & Hn & Hscan & Hr) rows.
  unfold FindProjects, Query, select_page, QueryRow_count, select_count, Offset.
  rewrite Hq, Hn, Hr; simpl.
  rewrite decide_False by nia. simpl.
  rewrite (scan_projects_rows f 0 _ Hscan).
  fold rows. do 4 f_equal. rewrite Z2Nat.inj_mul by lia. done.
Qed.

(** X6.  When every page is read with one and the same scan, the pages
    1 to ceil(total/size) concatenate to the projects of the organization
    in ascending order of title, each once, also when titles repeat. *)
Theorem pagination_with_one_scan (c : Collation) (sc : Scan) (f : Faults)
    (p : Pool) (org : uuid.UUID) (size : Z) :
  (1 ≤ size)%Z →
  reads_through f →
  let rows := filter (λ r, org_id r = org) (projects (committed p)) in
  let total := Z.of_nat (length rows) in
  let page k := FindProjects c sc f p org {| Number := k; Size := size |} in
  ∃ (sorted : list ProjectRow) (pages : list ProjectsPaged),
    sorted ≡ₚ rows
    ∧ Sorted (title_le c) sorted
    ∧ Forall2 (λ k pg, page k = Ok pg) (seqZ 1 (total_pages total size)) pages
    ∧ concat (Projects <$> pages) = project_of_row <$> sorted.
Proof.
  intros Hs Hf rows total page.
  set (sorted := order_by_title c sc rows).
  set (slice (k : Z) :=
         take (Z.to_nat size) (drop (Z.to_nat (k - 1) * Z.to_nat size) sorted)).
  assert (length sorted = length rows) as Hlen.
  { apply Permutation_length, order_by_title_Permutation. }
  pose proof (total_pages_cover total size ltac:(lia) Hs) as Hcover.
  exists sorted,
    ((λ k, {| Projects := project_of_row <$> slice k;
              Page := PageOfTotal {| Number := k; Size := size |} total |})
       <$> seqZ 1 (total_pages total size)).
  split; [apply order_by_title_Permutation|].
  split; [apply order_by_title_Sorted|]. split.
  - apply Forall2_fmap_r, Forall_Forall2_diag, Forall_forall.
    intros k [Hk _]%elem_of_seqZ. by apply FindProjects_slice.
  - rewrite <- list_fmap_compose. unfold seqZ.
    rewrite <- list_fmap_compose.
    transitivity (concat ((λ i, take (Z.to_nat size)
                                 (drop (i * Z.to_nat size)
                                    (project_of_row <$> sorted)))
                            <$> seq 0 (Z.to_nat (total_pages total size)))).
    + f_equal. apply list_fmap_ext. intros _ i _. simpl. unfold slice.
      rewrite fmap_take, fmap_drop. do 3 f_equal. lia.
    + rewrite concat_slices. apply take_ge. rewrite length_fmap, Hlen. nia.
Qed.

Lemma pagination_with_one_scan_witness :
  ∃ sorted pages,
    sorted ≡ₚ [sample.row1; sample.row2]
    ∧ Forall2
        (λ k pg,
           FindProjects bytewise backward_scan healthy sample.pool2 sample.orgA
             {| Number := k; Size := 1 |} = Ok pg)
        [1; 2]%Z pages
    ∧ concat (Projects <$> pages) = project_of_row <$> sorted.
Proof.
  destruct (pagination_with_one_scan bytewise backward_scan healthy
              sample.pool2 sample.orgA 1)
    as (sorted & pages & Hp & _ & Hall & Hcat).
  - lia.
  - exact reads_through_healthy.
  - by exists sorted, pages.
Defined.

End pages.

(** ** Writes and the lookups that follow them *)
Section writes.
Import errors paged pg repo.

Lemma filter_all {A} (P : A → Prop) `{!∀ x, Decision (P x)} (l : list A) :
  (∀ x, x ∈ l → P x) → filter P l = l.
Proof.
  induction l as [|x l IH]; intros Hl; [done|].
  rewrite filter_cons_True by (apply Hl; left).
  f_equal. apply IH. intros y Hy. apply Hl. by right.
Qed.

(** The rows an update sets are the rows of its key, and they keep it. *)
Lemma filter_key_update id org (new : ProjectRow → ProjectRow)
    (l : list ProjectRow) :
  (∀ r, has_key id org r → has_key id org (new r)) →
  filter (has_key id org)
    ((λ r, if decide (has_key id org r) then new r else r) <$> l)
  = new <$> filter (has_key id org) l.
Proof.
  intros Hnew. induction l as [|r l IH]; [done|]. rewrite fmap_cons.
  destruct (decide (has_key id org r)) as [Hk|Hk].
  - rewrite !filter_cons_True by auto. rewrite fmap_cons. by f_equal.
  - by rewrite !filter_cons_False.
Qed.

(** A predicate that no row of the key satisfies, before or after, sees
    the same rows after the update. *)
Lemma filter_frame_update id org (new : ProjectRow → ProjectRow)
    (P : ProjectRow → Prop) `{!∀ r, Decision (P r)} (l : list ProjectRow) :
  (∀ r, has_key id org r → ¬ P r ∧ ¬ P (new r)) →
  filter P ((λ r, if decide (has_key id org r) then new r else r) <$> l)
  = filter P l.
Proof.
  intros Hframe. induction l as [|r l IH]; [done|]. rewrite fmap_cons.
  destruct (decide (has_key id org r)) as [Hk|Hk].
  - destruct (Hframe r Hk). by rewrite !filter_cons_False.
  - rewrite !(filter_cons P), IH. done.
Qed.

Lemma filter_frame_delete id org (P : ProjectRow → Prop)
    `{!∀ r, Decision (P r)} (l : list ProjectRow) :
  (∀ r, has_key id org r → ¬ P r) →
  filter P (filter (λ r, ¬ has_key id org r) l) = filter P l.
Proof.
  intros Hframe. induction l as [|r l IH]; [done|].
  destruct (decide (has_key id org r)) as [Hk|Hk].
  - rewrite (filter_cons_False (λ r, ¬ has_key id org r)) by auto.
    rewrite (filter_cons_False P) by auto. done.
  - rewrite (filter_cons_True (λ r, ¬ has_key id org r)) by done.
    rewrite !(filter_cons P), IH. done.
Qed.

(** The rows a predicate sees after a write under the key (id, org),
    when no row of that key satisfies it: the same as before. *)
Lemma writes_frame (P : ProjectRow → Prop) `{!∀ r, Decision (P r)}
    (f : Faults) (p : Pool) (org : uuid.UUID) (project : Project) :
  (∀ r, project_id r = ID project → org_id r = org → ¬ P r) →
  filter P (projects (committed (UpdateProject f p org project).2))
    = filter P (projects (committed p))
  ∧ filter P (projects (committed (DeleteProjectByID f p org (ID project)).2))
    = filter P (projects (committed p))
  ∧ (org = OrganizationID project →
     filter P (projects (committed (InsertProject f p project).2))
     = filter P (projects (committed p))).
Proof.
  intros Hframe. split; [|split].
  - destruct (UpdateProject_committed f p org project) as [[_ ->]|[-> _]];
      [|done].
    unfold updated, update_project; simpl.
    apply filter_frame_update. intros r [Hid Horg].
    split; apply Hframe; done.
  - destruct (DeleteProjectByID_committed f p org (ID project))
      as [(_ & -> & _)|[_ ->]]; [|done].
    unfold deleted, delete_project, delete_activities; simpl.
    apply filter_frame_delete. intros r [Hid Horg]. by apply Hframe.
  - intros ->.
    destruct (InsertProject_committed f p project) as [(_ & _ & ->)|[-> _]];
      [|done].
    simpl. rewrite filter_app, filter_cons_False, filter_nil, app_nil_r; [done|].
    by apply Hframe.
Qed.

(** X7.  A write under one key leaves every point lookup under another
    key as it was: what UpdateProject, DeleteProjectByID or InsertProject
    did, or failed to do, under (id, org) is not seen under (id', org'). *)
Theorem writes_leave_other_keys (f f' : Faults) (p : Pool) (org : uuid.UUID)
    (project : Project) (id' org' : uuid.UUID) :
  ¬ (id' = ID project ∧ org' = org) →
  FindProjectByID f' (UpdateProject f p org project).2 org' id'
    = FindProjectByID f' p org' id'
  ∧ FindProjectByID f' (DeleteProjectByID f p org (ID project)).2 org' id'
    = FindProjectByID f' p org' id'
  ∧ (org = OrganizationID project →
     FindProjectByID f' (InsertProject f p project).2 org' id'
     = FindProjectByID f' p org' id').
Proof.
  intros Hother.
  destruct (writes_frame (has_key id' org') f p org project) as (Hu & Hd & Hi).
  { intros r Hid Horg [Hid' Horg']. apply Hother. split; congruence. }
  unfold FindProjectByID, select_by_key.
  rewrite Hu, Hd. split; [done|]. split; [done|].
  intros Ho. by rewrite (Hi Ho).
Qed.

Lemma writes_leave_other_keys_witness :
  FindProjectByID healthy
    (DeleteProjectByID healthy sample.pool1 sample.orgA sample.P1).2
    sample.orgB sample.P3
  = Ok (project_of_row sample.row3).
Proof.
  pose proof (writes_leave_other_keys healthy healthy sample.pool1 sample.orgA
                sample.alpha sample.P3 sample.orgB) as (_ & Hd & _).
  - by intros [? _].
  - exact Hd.
Defined.

(** What the two listings read of the tables are the rows of the
    organization. *)
Lemma listings_read_the_organization c sc f (p p' : Pool) org :
  filter (λ r, org_id r = org) (projects (committed p'))
    = filter (λ r, org_id r = org) (projects (committed p)) →
  (∀ params, FindProjects c sc f p' org params = FindProjects c sc f p org params)
  ∧ (∀ ids, FindProjectsByIDs c sc f p' org ids
            = FindProjectsByIDs c sc f p org ids).
Proof.
  intros Hrows. split.
  - intros params. unfold FindProjects, Query, select_page, select_count.
    by rewrite Hrows.
  - intros ids. unfold FindProjectsByIDs, Query, select_by_ids.
    assert (∀ l : list ProjectRow,
              filter (λ r, org_id r = org ∧ project_id r ∈ ids) l
              = filter (λ r, project_id r ∈ ids)
                  (filter (λ r, org_id r = org) l)) as Hsplit.
    { intros l. rewrite list_filter_filter. apply list_filter_iff. tauto. }
    by rewrite !Hsplit, Hrows.
Qed.

(** X8.  A write under one organization leaves both listings of every
    other organization as they were, page by page. *)
Theorem writes_leave_other_organizations (c : Collation) (sc : Scan)
    (f f' : Faults) (p : Pool) (org org' : uuid.UUID) (project : Project) :
  org' ≠ org →
  (∀ params ids,
     FindProjects c sc f' (UpdateProject f p org project).2 org' params
       = FindProjects c sc f' p org' params
     ∧ FindProjectsByIDs c sc f' (UpdateProject f p org project).2 org' ids
       = FindProjectsByIDs c sc f' p org' ids)
  ∧ (∀ params ids,
       FindProjects c sc f' (DeleteProjectByID f p org (ID project)).2 org' params
         = FindProjects c sc f' p org' params
       ∧ FindProjectsByIDs c sc f'
           (DeleteProjectByID f p org (ID project)).2 org' ids
         = FindProjectsByIDs c sc f' p org' ids)
  ∧ (org = OrganizationID project →
     ∀ params ids,
       FindProjects c sc f' (InsertProject f p project).2 org' params
         = FindProjects c sc f' p org' params
       ∧ FindProjectsByIDs c sc f' (InsertProject f p project).2 org' ids
         = FindProjectsByIDs c sc f' p org' ids).
Proof.
  intros Hother.
  destruct (writes_frame (λ r, org_id r = org') f p org project)
    as (Hu & Hd & Hi).
  { intros r _ Horg Horg'. apply Hother. congruence. }
  split; [|split].
  - intros params ids.
    destruct (listings_read_the_organization c sc f' p _ org' Hu). auto.
  - intros params ids.
    destruct (listings_read_the_organization c sc f' p _ org' Hd). auto.
  - intros Ho params ids.
    destruct (listings_read_the_organization c sc f' p _ org' (Hi Ho)). auto.
Qed.

Lemma writes_leave_other_organizations_witness :
  FindProjectsByIDs bytewise heap_scan healthy
    (UpdateProject healthy sample.pool1 sample.orgA sample.alpha).2
    sample.orgB [sample.P3; sample.P1]
  = Ok [project_of_row sample.row3].
Proof.
  pose proof (writes_leave_other_organizations bytewise heap_scan healthy healthy
                sample.pool1 sample.orgA sample.orgB sample.alpha) as (Hu & _).
  - discriminate.
  - destruct (Hu {| Number := 1; Size := 1 |} [sample.P3; sample.P1]) as [_ ->].
    reflexivity.
Defined.

End writes.

(** ** How the writes compose *)
Section composition.
Import errors paged pg repo.

Lemma UpdateProject_success f p p' org project updated_project :
  UpdateProject f p org project = (Ok updated_project, p') →
  updated_project = project
  ∧ p' = {| committed := updated org project (committed p);
            open_txs := open_txs p; calls := calls p |}
  ∧ filter (has_key (ID project) org) (projects (committed p)) ≠ [].
Proof.
  unfold updated. step_calls; try done.
  intros [= <- <-]. repeat split.
  intros Hnone. by rewrite Hnone in *.
Qed.

(** X9.  After a successful update, the lookup under the same key
    returns the title, description and active flag that were written. *)
Theorem update_then_find (f f' : Faults) (p p' : Pool) (org : uuid.UUID)
    (project returned : Project) :
  UpdateProject f p org project = (Ok returned, p') →
  row_err f' = None →
  returned = project
  ∧ FindProjectByID f' p' org (ID project)
    = Ok {| ID := ID project; OrganizationID := uuid.Nil;
            Title := Title project; Description := Description project;
            Active := Active project |}.
Proof.
  intros (-> & -> & Hsome)%UpdateProject_success Hf'. split; [done|].
  unfold FindProjectByID, QueryRow_project, select_by_key.
  rewrite Hf'. unfold updated, update_project; simpl.
  rewrite filter_key_update by (intros r [??]; by split).
  destruct (filter (has_key (ID project) org) (projects (committed p)))
    as [|r l] eqn:E; [done|].
  assert (r ∈ filter (has_key (ID project) org) (projects (committed p)))
    as [[Hid _] _]%list_elem_of_filter by (rewrite E; left).
  simpl. rewrite scan_project_row. unfold project_of_row; simpl.
  by rewrite Hid.
Qed.

Lemma update_then_find_witness :
  FindProjectByID healthy
    (UpdateProject healthy sample.pool1 sample.orgA
       {| ID := sample.P1; OrganizationID := sample.orgB; Title := "Alpha2";
          Description := "x"; Active := false |}).2
    sample.orgA sample.P1
  = Ok {| ID := sample.P1; OrganizationID := uuid.Nil; Title := "Alpha2";
          Description := "x"; Active := false |}.
Proof.
  eapply (update_then_find healthy healthy sample.pool1 _ sample.orgA
            {| ID := sample.P1; OrganizationID := sample.orgB;
               Title := "Alpha2"; Description := "x"; Active := false |}).
  - reflexivity.
  - reflexivity.
Defined.

(** X10.  Applying a successful update a second time succeeds again and
    changes nothing. *)
Theorem update_twice (f f2 : Faults) (p p' : Pool) (org : uuid.UUID)
    (project returned : Project) :
  UpdateProject f p org project = (Ok returned, p') →
  row_err f2 = None →
  UpdateProject f2 p' org project = (Ok project, p').
Proof.
  intros (-> & -> & Hsome)%UpdateProject_success Hf2.
  unfold UpdateProject, QueryRow_returning, updated, update_project.
  rewrite Hf2; simpl.
  rewrite filter_key_update by (intros r [??]; by split).
  destruct (filter (has_key (ID project) org) (projects (committed p)))
    as [|r l]; [done|]. simpl. do 3 f_equal.
  rewrite <- list_fmap_compose. apply list_fmap_ext. intros _ x _. simpl.
  destruct (decide (has_key (ID project) org x)) as [[??]|?].
  - by rewrite decide_True.
  - by rewrite decide_False.
Qed.

Lemma update_twice_witness :
  let p' := (UpdateProject healthy sample.pool1 sample.orgA sample.alpha).2 in
  UpdateProject healthy p' sample.orgA sample.alpha = (Ok sample.alpha, p').
Proof.
  intros p'.
  apply (update_twice healthy healthy sample.pool1 p' sample.orgA sample.alpha
           sample.alpha); reflexivity.
Defined.

(** What a delete does when no row carries its key and the store call
    does not fail. *)
Lemma DeleteProjectByID_absent f p org id :
  filter (has_key id org) (projects (committed p)) = [] →
  begin_err f = None → exec_err f = None → row_err f = None →
  rollback_err f = None →
  DeleteProjectByID f p org id
  = (Some ErrProjectNotFound,
     {| committed := committed p; open_txs := open_txs p;
        calls := calls p ++ [TxBegin; TxRollback] |}).
Proof.
  intros Hnone Hb He Hr Hrb.
  unfold DeleteProjectByID, Begin, Exec, QueryRow_returning, Rollback,
    delete_project.
  rewrite Hb, He; simpl. rewrite Hr; simpl. rewrite Hnone; simpl.
  by rewrite Hrb, <- app_assoc.
Qed.

(** X11.  A second delete of the same key, after a successful one, fails
    with ErrProjectNotFound, rolls back, and leaves the tables as the first
    delete left them. *)
Theorem delete_twice (f f2 : Faults) (p p' : Pool) (org id : uuid.UUID) :
  DeleteProjectByID f p org id = (None, p') →
  begin_err f2 = None → exec_err f2 = None → row_err f2 = None →
  rollback_err f2 = None →
  DeleteProjectByID f2 p' org id
  = (Some ErrProjectNotFound,
     {| committed := committed p'; open_txs := open_txs p';
        calls := calls p' ++ [TxBegin; TxRollback] |}).
Proof.
  intros Hdel. apply DeleteProjectByID_absent.
  destruct (DeleteProjectByID_committed f p org id) as [(_ & Hc & _)|[Hne _]];
    rewrite Hdel in *; simpl in *; [|done].
  rewrite Hc. unfold deleted, delete_project, delete_activities; simpl.
  apply filter_none. by intros r [Hr _]%list_elem_of_filter.
Qed.

Lemma delete_twice_witness :
  (DeleteProjectByID healthy
     (DeleteProjectByID healthy sample.pool1 sample.orgA sample.P1).2
     sample.orgA sample.P1).1
  = Some ErrProjectNotFound.
Proof.
  exact (f_equal fst
           (delete_twice healthy healthy sample.pool1
              (DeleteProjectByID healthy sample.pool1 sample.orgA sample.P1).2
              sample.orgA sample.P1 eq_refl eq_refl eq_refl eq_refl eq_refl)).
Defined.

(** X12.  Deleting a project right after it was inserted succeeds, when
    the store does not fail, and gives back the projects table from before
    the insert; of the activities the ones that carried the key are gone. *)
Theorem insert_then_delete (f f2 : Faults) (p p1 : Pool)
    (project inserted : Project) :
  InsertProject f p project = (Ok inserted, p1) →
  begin_err f2 = None → exec_err f2 = None → row_err f2 = None →
  returned_id f2 = None → commit_err f2 = None →
  DeleteProjectByID f2 p1 (OrganizationID project) (ID project)
  = (None,
     {| committed :=
          {| projects := projects (committed p);
             activities :=
               filter (λ a, ¬ activity_has_key (ID project)
                               (OrganizationID project) a)
                 (activities (committed p)) |};
        open_txs := open_txs p1;
        calls := calls p1 ++ [TxBegin; TxCommit] |}).
Proof.
  intros Hins Hb He Hr Hid Hc.
  destruct (InsertProject_committed f p project) as [(_ & Hfresh & Hp1)|[_ [e He']]];
    rewrite Hins in *; simpl in *; [|done].
  unfold DeleteProjectByID, Begin, Exec, QueryRow_returning, Commit,
    delete_project, delete_activities.
  rewrite Hb, He; simpl. rewrite Hr, Hp1; simpl.
  rewrite !filter_app.
  rewrite (filter_none (has_key (ID project) (OrganizationID project))).
  2:{ intros r Hin [Hk _]. apply Hfresh. rewrite <- Hk.
      by apply list_elem_of_fmap_2. }
  rewrite filter_cons_True by done. simpl.
  rewrite Hid; simpl. unfold uuid_text. rewrite decide_False by auto.
  rewrite Hc, <- app_assoc. simpl. do 3 f_equal.
  rewrite filter_cons_False by (intros Hn; by apply Hn).
  rewrite filter_nil, app_nil_r. apply filter_all.
  intros r Hin [Hk _]. apply Hfresh. rewrite <- Hk.
  by apply list_elem_of_fmap_2.
Qed.

Lemma insert_then_delete_witness :
  committed
    (DeleteProjectByID healthy
       (InsertProject healthy sample.empty sample.alpha).2
       sample.orgA sample.P1).2
  = committed sample.empty.
Proof.
  exact (f_equal (λ r, committed r.2)
           (insert_then_delete healthy healthy sample.empty
              (InsertProject healthy sample.empty sample.alpha).2 sample.alpha
              sample.alpha eq_refl eq_refl eq_refl eq_refl eq_refl eq_refl)).
Defined.

End composition.

(** ** Every way out of the transactional writes *)
Section outcomes.
Import errors paged pg repo.

(** X13.  InsertProject ends in one of four ways.  It could not begin,
    and nothing happened; its statement failed, it rolled back and returns
    an error; its commit failed, and it returns that error as it is; or it
    committed and returns the project, and the tables hold one more row.
    The committed tables change in the last case only, and no transaction
    stays open. *)
Theorem insert_outcomes (f : Faults) (p : Pool) (project : Project) :
  let r := InsertProject f p project in
  let closed t :=
    {| committed := committed p; open_txs := open_txs p;
       calls := calls p ++ t |} in
  (∃ e, begin_err f = Some e ∧ r = (Err e, p))
  ∨ (∃ e, r = (Err e, closed [TxBegin; TxRollback]))
  ∨ (∃ e, commit_err f = Some e ∧ r = (Err e, closed [TxBegin; TxCommit]))
  ∨ ((ID project ∉ (project_id <$> projects (committed p)))
     ∧ r = (Ok project,
            {| committed :=
                 {| projects := projects (committed p) ++ [row_of_project project];
                    activities := activities (committed p) |};
               open_txs := open_txs p;
               calls := calls p ++ [TxBegin; TxCommit] |})).
Proof.
  step_calls; rewrite <- ?app_assoc; simpl; eauto 6.
  unfold insert_project in *. case_decide; simplify_eq/=.
  right. right. right. by split.
Qed.

(** X14.  DeleteProjectByID ends in one of five ways.  It could not
    begin; a statement failed or no row matched, it rolled back and returns
    an error; the store answered with another identifier, and it returns
    ErrProjectNotFound with the transaction left open; its commit failed,
    and it returns that error as it is; or it committed both removals and
    returns no error.  The committed tables change in the last case only. *)
Theorem delete_outcomes (f : Faults) (p : Pool) (org id : uuid.UUID) :
  let r := DeleteProjectByID f p org id in
  let closed t :=
    {| committed := committed p; open_txs := open_txs p;
       calls := calls p ++ t |} in
  (∃ e, begin_err f = Some e ∧ r = (Some e, p))
  ∨ (∃ e, r = (Some e, closed [TxBegin; TxRollback]))
  ∨ (∃ text, returned_id f = Some text ∧ text ≠ uuid.String id
       ∧ r = (Some ErrProjectNotFound,
              {| committed := committed p; open_txs := S (open_txs p);
                 calls := calls p ++ [TxBegin] |}))
  ∨ (∃ e, commit_err f = Some e
       ∧ r = (Some e, closed [TxBegin; TxCommit]))
  ∨ r = (None,
         {| committed := deleted id org (committed p); open_txs := open_txs p;
            calls := calls p ++ [TxBegin; TxCommit] |}).
Proof.
  unfold deleted.
  step_calls; rewrite <- ?app_assoc; simpl; eauto 8.
  right. right. left.
  match goal with H : ¬ ¬ _ |- _ => clear H | _ => idtac end.
  destruct (returned_id f) as [text|] eqn:Hret; simpl in *.
  - by exists text.
  - exfalso.
    match goal with H : uuid_text _ ≠ _ |- _ => apply H end.
    unfold uuid_text. f_equal.
    match goal with H : _ <$> filter _ _ = _ :: _ |- _ => rename H into Hids end.
    destruct (filter (has_key id org) (projects (committed p))) as [|row l'] eqn:E;
      simplify_eq/=.
    assert (row ∈ filter (has_key id org) (projects (committed p)))
      as [[? ?] ?]%list_elem_of_filter by (rewrite E; left).
    done.
Qed.

End outcomes.

(** ** The point lookup and the listing by identifiers *)
Section agreement.
Import errors paged pg repo.

Lemma key_selects_at_most_one (t : Tables) (id org : uuid.UUID) :
  NoDup (project_id <$> projects t) →
  select_by_key id org t = [] ∨ ∃ r, select_by_key id org t = [r].
Proof.
  intros Hkey. destruct (select_by_key id org t) as [|r l] eqn:E; [by left|].
  right. exists r.
  assert (r ∈ filter (has_key id org) (projects t))
    as [[Hid Horg] Hin]%list_elem_of_filter by (unfold select_by_key in E; rewrite E; left).
  pose proof (select_by_key_unique t r org Hkey Hin) as Hu.
  rewrite Hid, decide_True in Hu by done. by rewrite <- E, Hu.
Qed.

(** X15.  Under the primary key, when the store calls go through, asking
    the listing for one identifier gives what the point lookup gives: the
    one project, or nothing where the lookup fails with
    ErrProjectNotFound. *)
Theorem lookup_agrees_with_listing (c : Collation) (sc : Scan) (f : Faults)
    (p : Pool) (org id : uuid.UUID) :
  NoDup (project_id <$> projects (committed p)) →
  reads_through f →
  (FindProjectByID f p org id = Err ErrProjectNotFound
   ∧ FindProjectsByIDs c sc f p org [id] = Ok [])
  ∨ (∃ project,
       FindProjectByID f p org id = Ok project
       ∧ FindProjectsByIDs c sc f p org [id] = Ok [project]).
Proof.
  intros Hkey (Hq & Hn & Hs & Hr).
  assert (filter (λ r, org_id r = org ∧ project_id r ∈ [id])
            (projects (committed p))
          = select_by_key id org (committed p)) as Hsame.
  { apply list_filter_iff. intros r. unfold has_key.
    rewrite list_elem_of_singleton. tauto. }
  unfold FindProjectByID, QueryRow_project, FindProjectsByIDs, Query,
    select_by_ids.
  rewrite Hq, Hn, Hr, Hsame; simpl.
  destruct (key_selects_at_most_one (committed p) id org Hkey) as [->|[r ->]].
  - left. split; [done|].
    by pose proof (order_by_title_Permutation c sc []) as ->%Permutation_nil_r.
  - right. exists (project_of_row r). rewrite scan_project_row. split; [done|].
    pose proof (order_by_title_Permutation c sc [r])
      as ->%Permutation_singleton_r.
    by rewrite (scan_projects_rows f 0 _ Hs).
Qed.

Lemma lookup_agrees_with_listing_witness :
  FindProjectByID healthy sample.pool1 sample.orgA sample.P1
    = Ok (project_of_row sample.row1)
  ∧ FindProjectsByIDs bytewise backward_scan healthy sample.pool1 sample.orgA
      [sample.P1]
    = Ok [project_of_row sample.row1].
Proof.
  destruct (lookup_agrees_with_listing bytewise backward_scan healthy
              sample.pool1 sample.orgA sample.P1)
    as [[H _]|(project & H1 & H2)].
  - apply (bool_decide_unpack _). vm_compute. exact I.
  - exact reads_through_healthy.
  - discriminate H.
  - split; [reflexivity|]. rewrite H2. vm_compute in H1.
    by injection H1 as <-.
Defined.

End agreement.

(** ** Headers of the error responses, and RenderJSON *)
Section responses.
Import errors http problem util.

Context {A : Type}.
Variable quote : string → string.
Variable marshal : A → error + string.

Lemma Error_header (w : ResponseWriter) (msg : string) (code : Z) :
  header (http.Error w msg code)
  = <["X-Content-Type-Options" := "nosniff"]>
      (<["Content-Type" := "text/plain; charset=utf-8"]>
         (delete "Content-Length" (header w))).
Proof. unfold http.Error, Write, WriteHeader; simpl. by destruct (status w). Qed.

Lemma JSONString_reason (err : error) :
  JSONString quote (New [problem.Wrap err])
  = "{" +:+ (quote "reason" +:+ ":" +:+ quote (errors.Error err)) +:+ "}".
Proof.
  unfold New; simpl. unfold problem.Wrap.
  generalize (errors.Error err) as reason. intros reason.
  vm_compute. reflexivity.
Qed.

(** X16.  In both modes RenderProblemJSON labels its JSON document as
    plain text: the response says Content-Type text/plain; charset=utf-8
    and X-Content-Type-Options nosniff, any Content-Length set before is
    dropped, and every other header stays as it was. *)
Theorem problem_response_headers (w : ResponseWriter) (isProduction : bool)
    (err : error) (log : list string) :
  let h := header (RenderProblemJSON quote w isProduction err log).1 in
  h !! "Content-Type" = Some "text/plain; charset=utf-8"
  ∧ h !! "X-Content-Type-Options" = Some "nosniff"
  ∧ h !! "Content-Length" = None
  ∧ ∀ name, name ≠ "Content-Type" → name ≠ "X-Content-Type-Options" →
      name ≠ "Content-Length" → h !! name = header w !! name.
Proof.
  intros h. subst h.
  assert (header (RenderProblemJSON quote w isProduction err log).1
          = <["X-Content-Type-Options" := "nosniff"]>
              (<["Content-Type" := "text/plain; charset=utf-8"]>
                 (delete "Content-Length" (header w)))) as ->.
  { unfold RenderProblemJSON. destruct isProduction; cbn [negb fst];
      apply Error_header. }
  split; [|split; [|split]].
  - by rewrite lookup_insert_ne, lookup_insert_eq.
  - by rewrite lookup_insert_eq.
  - by rewrite !lookup_insert_ne, lookup_delete_eq.
  - intros name H1 H2 H3.
    by rewrite !lookup_insert_ne, lookup_delete_ne.
Qed.

(** X17.  When the model has a JSON text and the write goes through,
    RenderJSON sets Content-Type to application/json, leaves the other
    headers alone, appends the text and a newline to the body, and the
    status is 200 unless a status line had been sent before. *)
Theorem RenderJSON_writes_the_model (w : ResponseWriter) (jsonModel : A)
    (text : string) :
  marshal jsonModel = inr text →
  let w' := RenderJSON quote marshal None w jsonModel in
  header w' = <["Content-Type" := "application/json"]> (header w)
  ∧ body w' = body w +:+ text +:+ newline
  ∧ status w' = Some (default 200%Z (status w)).
Proof.
  intros Hm. unfold RenderJSON, json.Encode, Write, WriteHeader.
  rewrite Hm; simpl. by destruct (status w).
Qed.

(** X18.  When the model has no JSON text, RenderJSON writes nothing of
    it and answers as http.Error does: the body gains the problem document
    whose only member is the reason, the text of the encoding error, with
    no production switch to leave it out; the Content-Type it had set is
    replaced by text/plain; and the status is 500 unless a status line had
    been sent before. *)
Theorem RenderJSON_reports_the_encoding_error (write_err : option error)
    (w : ResponseWriter) (jsonModel : A) (err : error) :
  marshal jsonModel = inl err →
  let w' := RenderJSON quote marshal write_err w jsonModel in
  body w'
  = body w +:+ ("{" +:+ (quote "reason" +:+ ":" +:+ quote (errors.Error err))
                +:+ "}") +:+ newline
  ∧ status w' = Some (default 500%Z (status w))
  ∧ header w' !! "Content-Type" = Some "text/plain; charset=utf-8"
  ∧ header w' !! "X-Content-Type-Options" = Some "nosniff".
Proof.
  intros Hm. unfold RenderJSON, json.Encode. rewrite Hm.
  cbv zeta. rewrite JSONString_reason.
  rewrite Error_body, Error_status, Error_header. simpl.
  split; [done|]. split; [done|]. split.
  - by rewrite lookup_insert_ne, lookup_insert_eq.
  - by rewrite lookup_insert_eq.
Qed.

End responses.

Lemma RenderJSON_writes_the_model_witness :
  let w := {| http.header := ∅; http.status := None; http.body := "" |} in
  http.body (util.RenderJSON (λ s, s) sample_marshal None w "[]")
    = "[]" +:+ http.newline
  ∧ http.status (util.RenderJSON (λ s, s) sample_marshal None w "[]")
    = Some 200%Z.
Proof.
  intros w.
  destruct (RenderJSON_writes_the_model (λ s, s) sample_marshal w "[]" "[]")
    as (_ & Hb & Hs); [reflexivity|].
  split; [exact Hb | exact Hs].
Defined.

Lemma RenderJSON_reports_the_encoding_error_witness :
  let w := {| http.header := ∅; http.status := None; http.body := "" |} in
  http.status (util.RenderJSON (λ s, s) sample_marshal None w "") = Some 500%Z.
Proof.
  intros w.
  destruct (RenderJSON_reports_the_encoding_error (λ s, s) sample_marshal None w
              "" (errors.StoreError "unsupported value"))
    as (_ & Hs & _); [reflexivity|].
  exact Hs.
Defined.
